(** * tsdb: the block chain store of bench-routes (src/tsdb/db.go)

    A shallow embedding of the Go package [tsdb]: blocks, chains bound to a
    backing file, the chain set with its flush scheduler, and the read-only
    view.  Go strings and byte slices are byte sequences, so both are
    [string] here.  The program runs in a state-and-panic monad; the
    operating system and the JSON decoder are interfaces, as they are
    libraries outside the package.  The mutexes guard against concurrent
    callers; a method that returns leaves its mutex free, so the methods
    are given without them.  What the mutex of a chain does after a
    [commit] that panicked is modelled apart, in [commit_mux]. *)

From Stdlib Require Import ZArith Ascii String List Lia.
From stdpp Require Import base option gmap strings list fin_maps pretty.

Local Open Scope Z_scope.

(* ===================================================================== *)
(** ** Go runtime: errors, panics, and the state monad                   *)
(* ===================================================================== *)

(** A Go [error] value that is not nil, by its message. *)
Definition error := string.

(** A function result of the shape [(T, error)] with exactly one side set. *)
Inductive result (A : Type) : Type :=
| Val (a : A)
| Err (e : error).
Arguments Val {A} a.
Arguments Err {A} e.

(** What a goroutine can panic with in this package. *)
Inductive panic_value : Type :=
| NilDereference              (* runtime error: invalid memory address or nil pointer dereference *)
| SliceBounds                 (* runtime error: slice bounds out of range *)
| PanicError (e : error).     (* panic(err) *)

Inductive outcome (A : Type) : Type :=
| Ok (a : A)
| Panic (v : panic_value).
Arguments Ok {A} a.
Arguments Panic {A} v.

(** How a call that starts with [Lock] on a mutex goes: the body ran, to
    a return or to a panic, or the call waits in [Lock] for a mutex that
    is held. *)
Inductive attempt (A : Type) : Type :=
| Ran (r : outcome A)
| Waits.
Arguments Ran {A} r.
Arguments Waits {A}.

(** A computation over a state [S]: the state survives a panic, since
    whatever was written before the panic stays written. *)
Definition M (S A : Type) : Type := S → outcome A * S.

Definition ret {S A : Type} (a : A) : M S A := λ s, (Ok a, s).

Definition bind {S A B : Type} (m : M S A) (k : A → M S B) : M S B :=
  λ s, match m s with
       | (Ok a, s') => k a s'
       | (Panic v, s') => (Panic v, s')
       end.

Definition panic {S A : Type} (v : panic_value) : M S A := λ s, (Panic v, s).
Definition get {S : Type} : M S S := λ s, (Ok s, s).
Definition modify {S : Type} (f : S → S) : M S unit := λ s, (Ok tt, f s).

Notation "'do' x <- m ; k" := (bind m (λ x, k))
  (at level 10, x name, m at level 100, k at level 200,
   format "'[v' 'do'  x  <-  m ; '/' k ']'").
Notation "'do' ' p <- m ; k" := (bind m (λ x, match x with p => k end))
  (at level 10, p pattern, m at level 100, k at level 200).
Notation "m ;; k" := (bind m (λ _, k))
  (at level 100, k at level 200, right associativity).

(** Run a computation of a component on the component of a larger state. *)
Definition zoom {S T A : Type} (proj : S → T) (inj : T → S → S) (m : M T A) : M S A :=
  λ s, let '(r, t') := m (proj s) in (r, inj t' s).

(* ===================================================================== *)
(** ** Package strings, for the one-byte separators the package uses     *)
(* ===================================================================== *)

Definition slash : ascii := "/"%char.
Definition dot : ascii := "."%char.
Definition LF : string := String (ascii_of_nat 10) EmptyString.
Definition dquote : string := String (ascii_of_nat 34) EmptyString.

(** [strings.Split(s, sep)] for a separator of one byte: the pieces of [s]
    between the separators, never an empty list. *)
Fixpoint Split (s : string) (sep : ascii) : list string :=
  match s with
  | EmptyString => [EmptyString]
  | String c s' =>
      if Ascii.eqb c sep then EmptyString :: Split s' sep
      else match Split s' sep with
           | p :: ps => String c p :: ps
           | [] => [String c EmptyString]
           end
  end.

(** [strings.Join(elems, sep)]. *)
Fixpoint Join (elems : list string) (sep : string) : string :=
  match elems with
  | [] => EmptyString
  | [x] => x
  | x :: rest => x +:+ sep +:+ Join rest sep
  end.

(** [strings.ReplaceAll(s, old, new)] for [old] of one byte. *)
Fixpoint ReplaceAll (s : string) (old : ascii) (new : string) : string :=
  match s with
  | EmptyString => EmptyString
  | String c s' =>
      if Ascii.eqb c old then new +:+ ReplaceAll s' old new
      else String c (ReplaceAll s' old new)
  end.

(** [c] occurs in [s]. *)
Fixpoint contains_byte (s : string) (c : ascii) : bool :=
  match s with
  | EmptyString => false
  | String d s' => Ascii.eqb d c || contains_byte s' c
  end.

(* ===================================================================== *)
(** ** Runes and their conversion to strings                             *)
(* ===================================================================== *)

Definition byte (x : Z) : ascii := ascii_of_N (Z.to_N (x mod 256)).
Definition bytes (l : list Z) : string :=
  fold_right (λ x s, String (byte x) s) EmptyString l.

(** [rune(x)] for an [int64]: the low 32 bits, read as signed. *)
Definition rune (x : Z) : Z := (x + 2 ^ 31) mod 2 ^ 32 - 2 ^ 31.
(** [uint32(r)]. *)
Definition uint32 (r : Z) : Z := r mod 2 ^ 32.

Definition rune1Max : Z := 0x7F.
Definition rune2Max : Z := 0x7FF.
Definition rune3Max : Z := 0xFFFF.
Definition MaxRune : Z := 0x10FFFF.
Definition surrogateMin : Z := 0xD800.
Definition surrogateMax : Z := 0xDFFF.
Definition RuneError : Z := 0xFFFD.
Definition maskx : Z := 0x3F.
Definition tx : Z := 0x80.
Definition t2 : Z := 0xC0.
Definition t3 : Z := 0xE0.
Definition t4 : Z := 0xF0.

Definition enc1 (r : Z) : string := bytes [r].
Definition enc2 (r : Z) : string :=
  bytes [Z.lor t2 (Z.shiftr r 6); Z.lor tx (Z.land r maskx)].
Definition enc3 (r : Z) : string :=
  bytes [Z.lor t3 (Z.shiftr r 12);
         Z.lor tx (Z.land (Z.shiftr r 6) maskx);
         Z.lor tx (Z.land r maskx)].
Definition enc4 (r : Z) : string :=
  bytes [Z.lor t4 (Z.shiftr r 18);
         Z.lor tx (Z.land (Z.shiftr r 12) maskx);
         Z.lor tx (Z.land (Z.shiftr r 6) maskx);
         Z.lor tx (Z.land r maskx)].

(** A rune that is a Unicode scalar value. *)
Definition valid_rune (r : Z) : bool :=
  (0 <=? r) && (r <=? MaxRune) && negb ((surrogateMin <=? r) && (r <=? surrogateMax)).

(** The runtime's [encoderune], which the conversion [string(r)] of a rune
    runs: UTF-8 of [r], and of U+FFFD for what is no scalar value. *)
Definition encoderune (r : Z) : string :=
  let i := uint32 r in
  if i <=? rune1Max then enc1 r
  else if i <=? rune2Max then enc2 r
  else if (MaxRune <? i) || ((surrogateMin <=? i) && (i <=? surrogateMax)) then enc3 RuneError
  else if i <=? rune3Max then enc3 r
  else enc4 r.

(** The UTF-8 form of the code point numbered [cp], by the table of the
    Unicode standard; there is none for a number that is no scalar value. *)
Definition utf8_of_code_point (cp : Z) : option string :=
  if negb (valid_rune cp) then None
  else if cp <=? rune1Max then Some (enc1 cp)
  else if cp <=? rune2Max then Some (enc2 cp)
  else if cp <=? rune3Max then Some (enc3 cp)
  else Some (enc4 cp).

(** [strconv]'s decimal form of an integer. *)
Definition FormatInt (n : Z) : string := pretty n.

(* ===================================================================== *)
(** ** Block                                                             *)
(* ===================================================================== *)

Definition BlockDataSeparator : string := "|".
Definition FileExtension : string := ".json".

(** [type Block struct]; the field [Type] is [Type_] here. *)
Record Block : Type := {
  Datapoint : string;
  NormalizedTime : Z;       (* int64 *)
  Type_ : string;
  Timestamp : string;
}.

Definition GetType (b : Block) : string := Type_ b.
Definition GetDatapointEnc (b : Block) : string := Datapoint b.
Definition GetNormalizedTimeStringified (b : Block) : string :=
  encoderune (rune (NormalizedTime b)).
Definition GetNormalizedTime (b : Block) : Z := NormalizedTime b.
Definition GetTimeStamp (b : Block) : string := Timestamp b.

(** A Go slice of blocks: [None] is the nil slice, [Some l] a slice that is
    not nil and holds [l]. *)
Definition Blocks : Type := option (list Block).

Definition elems (s : Blocks) : list Block := default [] s.
Definition len (s : Blocks) : Z := Z.of_nat (length (elems s)).

(** [append(s, xs...)]: nil stays nil when nothing is added. *)
Definition append (s : Blocks) (xs : list Block) : Blocks :=
  match s, xs with
  | None, [] => None
  | _, _ => Some (elems s ++ xs)
  end.

(* ===================================================================== *)
(** ** Package encoding/json                                             *)
(* ===================================================================== *)

(** The values [json.Marshal] is handed, as reflection sees them. *)
#[warnings="-register-all"]
Inductive GoValue : Type :=
| VString (s : string)
| VInt64 (n : Z)
| VStruct (fields : list (string * GoValue))   (* by JSON key, in declaration order *)
| VSlice (s : option (list GoValue))
| VUnsupported.   (* a channel, function or complex value: UnsupportedTypeError *)

(** The JSON decoder for a [[]Block] target and the encoder's rendering of
    a string as a JSON string literal (its escaping): library code. *)
Class Codec : Type := {
  encodeString : string → string;
  json_Unmarshal : string → result Blocks;
}.

Section JSON.
Context `{Codec}.

Definition UnsupportedTypeError : error := "json: unsupported type".

(** [json.Marshal(v)]: the text, or the error of the first unsupported
    value met. *)
Fixpoint json_Marshal (v : GoValue) : result string :=
  let fix fields_go (first : bool) (fs : list (string * GoValue)) : result string :=
    match fs with
    | [] => Val EmptyString
    | (k, x) :: rest =>
        match json_Marshal x with
        | Err e => Err e
        | Val jx =>
            match fields_go false rest with
            | Err e => Err e
            | Val jr =>
                Val ((if first then EmptyString else ",") +:+
                     dquote +:+ k +:+ dquote +:+ ":" +:+ jx +:+ jr)
            end
        end
    end in
  let fix elems_go (first : bool) (xs : list GoValue) : result string :=
    match xs with
    | [] => Val EmptyString
    | x :: rest =>
        match json_Marshal x with
        | Err e => Err e
        | Val jx =>
            match elems_go false rest with
            | Err e => Err e
            | Val jr => Val ((if first then EmptyString else ",") +:+ jx +:+ jr)
            end
        end
    end in
  match v with
  | VString s => Val (encodeString s)
  | VInt64 n => Val (FormatInt n)
  | VStruct fs =>
      match fields_go true fs with
      | Err e => Err e
      | Val j => Val ("{" +:+ j +:+ "}")
      end
  | VSlice None => Val "null"
  | VSlice (Some xs) =>
      match elems_go true xs with
      | Err e => Err e
      | Val j => Val ("[" +:+ j +:+ "]")
      end
  | VUnsupported => Err UnsupportedTypeError
  end.

(** A [Block] as [json.Marshal] sees it: the struct tags give the keys. *)
Definition Block_value (b : Block) : GoValue :=
  VStruct [("datapoint", VString (Datapoint b));
           ("normalized-time", VInt64 (NormalizedTime b));
           ("type", VString (Type_ b));
           ("timestamp", VString (Timestamp b))].

Definition Blocks_value (a : Blocks) : GoValue :=
  VSlice (map Block_value <$> a).

(** The JSON object of a block, written out. *)
Definition Block_json (b : Block) : string :=
  "{" +:+ dquote +:+ "datapoint" +:+ dquote +:+ ":" +:+ encodeString (Datapoint b) +:+
  "," +:+ dquote +:+ "normalized-time" +:+ dquote +:+ ":" +:+ FormatInt (NormalizedTime b) +:+
  "," +:+ dquote +:+ "type" +:+ dquote +:+ ":" +:+ encodeString (Type_ b) +:+
  "," +:+ dquote +:+ "timestamp" +:+ dquote +:+ ":" +:+ encodeString (Timestamp b) +:+
  "}".

(** [func (b Block) Encode() string] *)
Definition Encode {S : Type} (b : Block) : M S string :=
  match json_Marshal (Block_value b) with
  | Err err => panic (PanicError err)
  | Val bbyte => ret bbyte
  end.

(** [func parseToJSON(a []Block) (j []byte)] *)
Definition parseToJSON {S : Type} (a : Blocks) : M S string :=
  match json_Marshal (Blocks_value a) with
  | Err e => panic (PanicError e)
  | Val j => ret j
  end.

End JSON.

(* ===================================================================== *)
(** ** The operating system: packages os and io/ioutil                   *)
(* ===================================================================== *)

(** The file system of the host as the package uses it.  [None] in the
    place of an [error] is Go's nil error.  The permission arguments are
    left out.  The laws are all the package's properties rest on: a
    regular file reads back what was written to it, and the empty path
    names nothing, so that neither [Stat] nor [MkdirAll] succeeds on it
    (ENOENT) and the failed [MkdirAll] changes nothing. *)
Class OS (W : Type) : Type := {
  ReadFile : string → W → result string;
  Stat : string → W → option error;
  MkdirAll : string → W → W * option error;
  WriteFile : string → string → W → W * option error;
  WriteFile_ReadFile : ∀ path data w w',
    WriteFile path data w = (w', None) → ReadFile path w' = Val data;
  Stat_empty : ∀ w, Stat EmptyString w ≠ None;
  MkdirAll_empty : ∀ w, ∃ e, MkdirAll EmptyString w = (w, Some e);
}.

Inductive level : Type := INFO | ERROR.

(** The error [parse] makes up for a file it cannot read. *)
Definition NoFile : error := "file not existed. create a new chain".

Section Tsdb.
Context {W : Type} `{OS W} `{Codec}.

(** The world outside the process: the disk and what was logged. *)
Record World : Type := {
  disk : W;
  logged : list (level * string);
}.

Definition set_disk (d : W) (w : World) : World :=
  {| disk := d; logged := logged w |}.

(** [log.Infof] and [log.Errorf], with the message already formatted. *)
Definition log_Infof (msg : string) : M World unit :=
  modify (λ w, {| disk := disk w; logged := logged w ++ [(INFO, msg)] |}).
Definition log_Errorf (msg : string) : M World unit :=
  modify (λ w, {| disk := disk w; logged := logged w ++ [(ERROR, msg)] |}).

(* ------------------------------------------------------------------- *)
(** *** Storage helpers                                                 *)
(* ------------------------------------------------------------------- *)

(** [func parse(path string)], returning a [*string] and an [error]:
    the pointer is nil ([None]) exactly when the error is not. *)
Definition parse (path : string) : M World (option string * option error) :=
  do w <- get;
  match ReadFile path (disk w) with
  | Err _ => ret (None, Some NoFile)
  | Val res => ret (Some res, None)
  end.

(** [func loadFromStorage(raw *string) *[]Block] *)
Definition loadFromStorage {S : Type} (raw : option string) : M S Blocks :=
  match raw with
  | None => panic NilDereference
  | Some b =>
      match json_Unmarshal b with
      | Err e => panic (PanicError e)
      | Val inst => ret inst
      end
  end.

(** [func mergeBlocksSlice(oldSlice, newSlice *[]Block) *[]Block] *)
Definition mergeBlocksSlice (oldSlice newSlice : Blocks) : Blocks :=
  append oldSlice (elems newSlice).

(** [array[:len(array)-1]] *)
Definition drop_last {S A : Type} (array : list A) : M S (list A) :=
  match array with
  | [] => panic SliceBounds
  | _ => ret (take (length array - 1) array)
  end.

(** [func checkAndCreatePath(path string)] *)
Definition checkAndCreatePath (path : string) : M World unit :=
  let array := Split path slash in
  do array <- drop_last array;
  let path := Join array "/" in
  do w <- get;
  match Stat path (disk w) with
  | Some err =>
      let '(d, e) := MkdirAll path (disk w) in
      modify (set_disk d);;
      match e with
      | Some e => panic (PanicError e)
      | None => ret tt
      end
  | None => ret tt
  end.

(** [func saveToHDD(path string, data []byte) error] *)
Definition saveToHDD (path data : string) : M World (option error) :=
  checkAndCreatePath path;;
  do w <- get;
  let '(d, e) := WriteFile path data (disk w) in
  modify (set_disk d);;
  match e with
  | Some e => ret (Some e)
  | None => ret None
  end.

(* ------------------------------------------------------------------- *)
(** *** Chain                                                           *)
(* ------------------------------------------------------------------- *)

(** [type Chain struct], without the mutex; the field [Chain] is
    [Chain_] here. *)
Record Chain : Type := {
  Path : string;
  Name : string;
  Route : string;
  Chain_ : Blocks;
  LengthElements : Z;            (* int *)
  containsNewBlocks : bool;
  inActiveIterations : Z;        (* uint32 *)
}.

Definition set_Chain_ (v : Blocks) (c : Chain) : Chain :=
  {| Path := Path c; Name := Name c; Route := Route c; Chain_ := v;
     LengthElements := LengthElements c;
     containsNewBlocks := containsNewBlocks c;
     inActiveIterations := inActiveIterations c |}.
Definition set_LengthElements (v : Z) (c : Chain) : Chain :=
  {| Path := Path c; Name := Name c; Route := Route c; Chain_ := Chain_ c;
     LengthElements := v;
     containsNewBlocks := containsNewBlocks c;
     inActiveIterations := inActiveIterations c |}.
Definition set_containsNewBlocks (v : bool) (c : Chain) : Chain :=
  {| Path := Path c; Name := Name c; Route := Route c; Chain_ := Chain_ c;
     LengthElements := LengthElements c;
     containsNewBlocks := v;
     inActiveIterations := inActiveIterations c |}.
Definition set_inActiveIterations (v : Z) (c : Chain) : Chain :=
  {| Path := Path c; Name := Name c; Route := Route c; Chain_ := Chain_ c;
     LengthElements := LengthElements c;
     containsNewBlocks := containsNewBlocks c;
     inActiveIterations := v |}.

(** [func filterChainPath(name string) string] *)
Definition filterChainPath (name : string) : string :=
  let name := ReplaceAll name dot "___" in
  ReplaceAll name slash "_".

(** [func NewChain(path string) *Chain] *)
Definition NewChain (path : string) : Chain :=
  {| Name := filterChainPath path;
     Path := path;
     Route := EmptyString;
     Chain_ := Some [];
     LengthElements := 0;
     containsNewBlocks := true;
     inActiveIterations := 0 |}.

(** A method with a pointer receiver of type [R] runs on the value the
    receiver points to and on the world.  The methods of the package
    return their receiver, which is left implicit. *)
Definition Method (R A : Type) : Type := M (R * World) A.

Definition this {R : Type} : Method R R := λ s, (Ok (fst s), s).
Definition update {R : Type} (f : R → R) : Method R unit :=
  modify (λ s, (f (fst s), snd s)).
Definition io {R A : Type} (m : M World A) : Method R A :=
  zoom snd (λ w s, (fst s, w)) m.

(** [func (c *Chain) Init() *Chain] *)
Definition Init : Method Chain unit :=
  do c <- this;
  do r <- io (parse (Path c));
  match snd r with
  | Some err =>
      io (log_Infof ("creating in-memory chain: " +:+ Name c +:+ LF));;
      update (set_LengthElements 0);;
      update (set_Chain_ (Some []));;
      do err <- io (saveToHDD (Path c) "[]");
      match err with
      | Some err => panic (PanicError err)
      | None => ret tt
      end
  | None =>
      update (set_Chain_ (Some []));;
      do c <- this;
      update (set_LengthElements (len (Chain_ c)))
  end.

(** [func (c *Chain) Append(b Block) *Chain] *)
Definition Append (b : Block) : Method Chain unit :=
  do c <- this;
  update (set_Chain_ (append (Chain_ c) [b]));;
  do c <- this;
  update (set_LengthElements (len (Chain_ c)));;
  update (set_containsNewBlocks true);;
  do c <- this;
  if negb (inActiveIterations c =? 0)
  then update (set_inActiveIterations 0)
  else ret tt.

(** [func (c *Chain) commit() *Chain] *)
Definition commit : Method Chain unit :=
  do c <- this;
  do r <- io (parse (Path c));
  let '(pathPointer, err) := r in
  match err with
  | Some err => panic (PanicError err)
  | None =>
      do existingBlocks <- loadFromStorage pathPointer;
      let mergedBlocks := mergeBlocksSlice existingBlocks (Chain_ c) in
      do bytes <- parseToJSON mergedBlocks;
      do err <- io (saveToHDD (Path c) bytes);
      match err with
      | Some err => panic (PanicError err)
      | None =>
          update (set_Chain_ (Some []));;
          update (set_containsNewBlocks false)
      end
  end.

(* ------------------------------------------------------------------- *)
(** *** The mutex of a chain                                            *)
(* ------------------------------------------------------------------- *)

(** A chain with its field [mux]: [held] is the state of the mutex, set
    by [Lock] and cleared by [Unlock]. *)
Record Guarded : Type := {
  guarded : Chain;
  held : bool;
}.

(** [Chain.Append] from [c.mux.Lock()] on.  [Unlock] is deferred: it runs
    on every way out of the body. *)
Definition Append_mux (b : Block) (st : Guarded * World) :
    attempt unit * (Guarded * World) :=
  if held st.1 then (Waits, st)
  else
    let '(r, (c, w)) := Append b (guarded st.1, st.2) in
    (Ran r, ({| guarded := c; held := false |}, w)).

(** [Chain.commit] from [c.mux.Lock()] on.  [c.mux.Unlock()] is the last
    statement before the return and is not deferred: a body that panics
    does not reach it. *)
Definition commit_mux (st : Guarded * World) :
    attempt unit * (Guarded * World) :=
  if held st.1 then (Waits, st)
  else
    let '(r, (c, w)) := commit (guarded st.1, st.2) in
    (Ran r, ({| guarded := c;
                held := match r with Ok _ => false | Panic _ => true end |}, w)).

(* ------------------------------------------------------------------- *)
(** *** ChainReadOnly                                                   *)
(* ------------------------------------------------------------------- *)

(** [type ChainReadOnly struct]; [ro_Chain] is the slice its [Chain]
    pointer points to. *)
Record ChainReadOnly : Type := {
  ro_Path : string;
  ro_Chain : Blocks;
}.

(** [func ReadOnly(path string) *ChainReadOnly] *)
Definition ReadOnly (path : string) : ChainReadOnly :=
  {| ro_Path := path; ro_Chain := None |}.

(** [func (c *ChainReadOnly) BlockStream() *[]Block] *)
Definition BlockStream (c : ChainReadOnly) : Blocks := ro_Chain c.

Definition set_ro_Chain (v : Blocks) (c : ChainReadOnly) : ChainReadOnly :=
  {| ro_Path := ro_Path c; ro_Chain := v |}.

(** [func (c *ChainReadOnly) Refresh() *ChainReadOnly] *)
Definition Refresh : Method ChainReadOnly unit :=
  do c <- this;
  do r <- io (parse (ro_Path c));
  let '(response, err) := r in
  (match err with
   | Some _ => io (log_Errorf ("error reading the chain: " +:+ ro_Path c +:+ LF))
   | None => ret tt
   end);;
  do loaded <- loadFromStorage response;
  update (set_ro_Chain loaded).

End Tsdb.

(* ===================================================================== *)
(** ** ChainSet and its scheduler                                        *)
(* ===================================================================== *)

(** Addresses of chains; a [*Chain] is an address or nil ([None]). *)
Definition loc : Type := positive.
Abbreviation ptr := (option loc).

Definition FlushAsTime : Z := 0.
Definition FlushAsSpace : Z := 1.

(** [type ChainSet struct], with the map [NewChainSet] allocates; the
    cancel channel and the lock are left out. *)
Record ChainSet : Type := {
  FlushDuration : Z;          (* time.Duration *)
  flushType : Z;              (* int *)
  Cmap : gmap string ptr;
}.

(** [func NewChainSet(flushType int, flushDuration time.Duration) *ChainSet] *)
Definition NewChainSet (flushType : Z) (flushDuration : Z) : ChainSet :=
  {| FlushDuration := flushDuration; flushType := flushType; Cmap := ∅ |}.

(** [func (cs *ChainSet) Get(name string)], returning a [*Chain] and
    whether the name was found. *)
Definition Get (cs : ChainSet) (name : string) : ptr * bool :=
  match Cmap cs !! name with
  | None => (None, false)
  | Some chain => (chain, true)
  end.

(** [func (cs *ChainSet) Register(name string, chainAddress *Chain)]: the
    chain set after the call. *)
Definition Register (cs : ChainSet) (name : string) (chainAddress : ptr) : ChainSet :=
  {| FlushDuration := FlushDuration cs; flushType := flushType cs;
     Cmap := <[name := chainAddress]> (Cmap cs) |}.

Section Scheduler.
Context {W : Type} `{OS W} `{Codec}.

(** The process: the chains in memory, by address, and the world. *)
Record Sys : Type := {
  heap : gmap loc Chain;
  world : @World W;
}.

(** Call a method on the chain a pointer points to.  A method called on
    nil panics when it first touches its receiver; every method here does
    so before anything else.  An address without a chain counts as nil. *)
Definition call {A : Type} (chain : ptr) (m : Method Chain A) : M Sys A :=
  λ s, match chain with
       | None => (Panic NilDereference, s)
       | Some l =>
           match heap s !! l with
           | None => (Panic NilDereference, s)
           | Some c =>
               let '(r, (c', w')) := m (c, world s) in
               (r, {| heap := <[l := c']> (heap s); world := w' |})
           end
       end.

(** [cs.Cmap[name]]: the zero value, nil, for a name that is not there. *)
Definition index (cs : ChainSet) (name : string) : ptr :=
  default None (Cmap cs !! name).

(** [func (cs *ChainSet) Append(name string, block Block) *Chain] *)
Definition ChainSet_Append (cs : ChainSet) (name : string) (block : Block) : M Sys ptr :=
  call (index cs name) (Append block);;
  ret (index cs name).

(** The body of the loop over [cs.Cmap] in [Run]. *)
Definition flush : Method Chain unit :=
  do chain <- this;
  if containsNewBlocks chain
  then commit
  else update (set_inActiveIterations ((inActiveIterations chain + 1) mod 2 ^ 32)).

Fixpoint range (chains : list ptr) : M Sys unit :=
  match chains with
  | [] => ret tt
  | chain :: rest => call chain flush;; range rest
  end.

(** Go leaves the order in which [range] visits a map open: [order] is
    an order of the names of [cs.Cmap]. *)
Definition iteration_order (cs : ChainSet) (order : list string) : Prop :=
  order ≡ₚ (map_to_list (Cmap cs)).*1.

(** One turn of the loop of [Run]'s goroutine, between the check of the
    cancel channel and the sleep. *)
Definition tick (cs : ChainSet) (order : list string) : M Sys unit :=
  range (index cs <$> order).

(** [func (cs *ChainSet) Run()], for the turns the loop takes before it
    finds the cancel signal, each with its iteration order. *)
Definition Run (cs : ChainSet) (turns : list (list string)) : M Sys unit :=
  if flushType cs =? FlushAsTime
  then fold_right (λ order k, tick cs order;; k) (ret tt) turns
  else ret tt.

End Scheduler.

(* ===================================================================== *)
(** ** Reference instances, to run the program on concrete inputs        *)
(* ===================================================================== *)

Module Reference.

(** An in-memory file system: files by path, and the directories. *)
Record MemDisk : Type := {
  files : gmap string string;
  dirs : gset string;
}.

Definition ENOENT : error := "no such file or directory".
Definition ENOTDIR : error := "not a directory".
Definition EISDIR : error := "is a directory".

Definition mem_ReadFile (path : string) (d : MemDisk) : result string :=
  match files d !! path with
  | Some data => Val data
  | None => Err ENOENT
  end.

Definition mem_Stat (path : string) (d : MemDisk) : option error :=
  if String.eqb path EmptyString then Some ENOENT
  else if bool_decide (is_Some (files d !! path)) || bool_decide (path ∈ dirs d)
  then None
  else Some ENOENT.

Definition mem_MkdirAll (path : string) (d : MemDisk) : MemDisk * option error :=
  if String.eqb path EmptyString then (d, Some ENOENT)
  else if bool_decide (is_Some (files d !! path)) then (d, Some ENOTDIR)
  else ({| files := files d; dirs := {[path]} ∪ dirs d |}, None).

Definition mem_WriteFile (path data : string) (d : MemDisk) : MemDisk * option error :=
  if String.eqb path EmptyString then (d, Some ENOENT)
  else if bool_decide (path ∈ dirs d) then (d, Some EISDIR)
  else ({| files := <[path := data]> (files d); dirs := dirs d |}, None).

Lemma mem_WriteFile_ReadFile path data w w' :
  mem_WriteFile path data w = (w', None) → mem_ReadFile path w' = Val data.
Proof.
  unfold mem_WriteFile, mem_ReadFile.
  destruct (String.eqb path EmptyString); [discriminate |].
  destruct (bool_decide (path ∈ dirs w)); [discriminate |].
  intros [= <-]. simpl. by rewrite lookup_insert_eq.
Qed.

Lemma mem_Stat_empty w : mem_Stat EmptyString w ≠ None.
Proof. discriminate. Qed.

Lemma mem_MkdirAll_empty w : ∃ e, mem_MkdirAll EmptyString w = (w, Some e).
Proof. by exists ENOENT. Qed.

#[export] Instance MemFS : OS MemDisk := {|
  ReadFile := mem_ReadFile;
  Stat := mem_Stat;
  MkdirAll := mem_MkdirAll;
  WriteFile := mem_WriteFile;
  WriteFile_ReadFile := mem_WriteFile_ReadFile;
  Stat_empty := mem_Stat_empty;
  MkdirAll_empty := mem_MkdirAll_empty;
|}.

(** A codec for strings that need no escape but those of the quote and
    the backslash; the decoder reads what the encoder writes. *)
Definition quote_char : ascii := ascii_of_nat 34.
Definition backslash : ascii := ascii_of_nat 92.

Fixpoint escape (s : string) : string :=
  match s with
  | EmptyString => EmptyString
  | String c s' =>
      if Ascii.eqb c quote_char || Ascii.eqb c backslash
      then String backslash (String c (escape s'))
      else String c (escape s')
  end.

Definition ref_encodeString (s : string) : string :=
  dquote +:+ escape s +:+ dquote.

Fixpoint strip_prefix (p s : string) : option string :=
  match p, s with
  | EmptyString, _ => Some s
  | String a p', String b s' => if Ascii.eqb a b then strip_prefix p' s' else None
  | String _ _, EmptyString => None
  end.

(** The text of a string literal from behind its opening quote, and
    what follows its closing quote. *)
Fixpoint read_string (s : string) : option (string * string) :=
  match s with
  | EmptyString => None
  | String c rest =>
      if Ascii.eqb c quote_char then Some (EmptyString, rest)
      else if Ascii.eqb c backslash then
        match rest with
        | EmptyString => None
        | String d rest' =>
            match read_string rest' with
            | Some (t, r) => Some (String d t, r)
            | None => None
            end
        end
      else
        match read_string rest with
        | Some (t, r) => Some (String c t, r)
        | None => None
        end
  end.

Definition digit (c : ascii) : option Z :=
  let n := Z.of_N (N_of_ascii c) in
  if (48 <=? n) && (n <=? 57) then Some (n - 48) else None.

Fixpoint read_digits (acc : Z) (s : string) : Z * string :=
  match s with
  | EmptyString => (acc, s)
  | String c r =>
      match digit c with
      | Some d => read_digits (10 * acc + d) r
      | None => (acc, s)
      end
  end.

Definition read_int (s : string) : option (Z * string) :=
  match s with
  | EmptyString => None
  | String c r =>
      if Ascii.eqb c "-"%char
      then match r with
           | String d _ =>
               if digit d is Some _
               then let '(n, r') := read_digits 0 r in Some (- n, r')
               else None
           | EmptyString => None
           end
      else if digit c is Some _ then Some (read_digits 0 s) else None
  end.

Definition key (k : string) : string := dquote +:+ k +:+ dquote +:+ ":".

Definition read_block (s : string) : option (Block * string) :=
  s ← strip_prefix ("{" +:+ key "datapoint" +:+ dquote) s;
  '(dp, s) ← read_string s;
  s ← strip_prefix ("," +:+ key "normalized-time") s;
  '(nt, s) ← read_int s;
  s ← strip_prefix ("," +:+ key "type" +:+ dquote) s;
  '(ty, s) ← read_string s;
  s ← strip_prefix ("," +:+ key "timestamp" +:+ dquote) s;
  '(ts, s) ← read_string s;
  s ← strip_prefix "}" s;
  Some ({| Datapoint := dp; NormalizedTime := nt; Type_ := ty; Timestamp := ts |}, s).

(** The elements behind the first one, up to the closing bracket. *)
Fixpoint read_more (fuel : nat) (s : string) : option (list Block) :=
  match fuel with
  | O => None
  | S fuel =>
      if String.eqb s "]" then Some []
      else
        r ← strip_prefix "," s;
        '(b, s') ← read_block r;
        bs ← read_more fuel s';
        Some (b :: bs)
  end.

Definition SyntaxError : error := "invalid character looking for beginning of value".

Definition ref_Unmarshal (s : string) : result Blocks :=
  if String.eqb s "null" then Val None
  else if String.eqb s "[]" then Val (Some [])
  else
    match r ← strip_prefix "[" s;
          '(b, s') ← read_block r;
          bs ← read_more (String.length s) s';
          Some (b :: bs) with
    | Some l => Val (Some l)
    | None => Err SyntaxError
    end.

#[export] Instance RefCodec : Codec := {|
  encodeString := ref_encodeString;
  json_Unmarshal := ref_Unmarshal;
|}.

Definition block1 : Block :=
  {| Datapoint := "200"; NormalizedTime := 1600000000000000000;
     Type_ := "latency"; Timestamp := "2020|September|13|12|26|40" |}.
Definition block2 : Block :=
  {| Datapoint := "350"; NormalizedTime := 1600000000000000123;
     Type_ := "latency"; Timestamp := "2020|September|13|12|26|40" |}.

(** A disk with the directory [storage] and an empty chain file in it. *)
Definition disk0 : MemDisk :=
  {| files := {[ "storage/route_a.json" := "[]" ]}; dirs := {[ "storage" ]} |}.
Definition world0 : World := {| disk := disk0; logged := [] |}.

End Reference.

(* ===================================================================== *)
(** ** encoding/json on strings that are not valid UTF-8                 *)
(* ===================================================================== *)

(** A codec after Go's encoding/json in what it does to the bytes of
    a string: the encoder escapes the quote, the backslash, the control
    bytes and the bytes [<], [>] and [&], copies valid UTF-8, and writes
    the escape of U+FFFD for every byte that starts no valid UTF-8
    sequence; the decoder resolves the escapes.  The decoder reads the
    texts the encoder writes for slices of blocks. *)
Module GoJSON.

Definition code (c : ascii) : Z := Z.of_N (N_of_ascii c).
Definition between (lo x hi : Z) : bool := (lo <=? x) && (x <=? hi).
Definition cont (c : ascii) : bool := between 0x80 (code c) 0xBF.

(** The sequences [utf8.DecodeRuneInString] accepts, by their length. *)
Definition seq2 (b0 b1 : ascii) : bool :=
  between 0xC2 (code b0) 0xDF && cont b1.
Definition seq3 (b0 b1 b2 : ascii) : bool :=
  ((code b0 =? 0xE0) && between 0xA0 (code b1) 0xBF
   || between 0xE1 (code b0) 0xEC && cont b1
   || (code b0 =? 0xED) && between 0x80 (code b1) 0x9F
   || between 0xEE (code b0) 0xEF && cont b1)
  && cont b2.
Definition seq4 (b0 b1 b2 b3 : ascii) : bool :=
  ((code b0 =? 0xF0) && between 0x90 (code b1) 0xBF
   || between 0xF1 (code b0) 0xF3 && cont b1
   || (code b0 =? 0xF4) && between 0x80 (code b1) 0x8F)
  && cont b2 && cont b3.

Definition backslash : ascii := ascii_of_nat 92.
Definition quote_char : ascii := ascii_of_nat 34.

Definition hex_digit (n : Z) : ascii :=
  if n <? 10 then byte (48 + n) else byte (87 + n).

(** The escape of U+FFFD. *)
Definition escaped_RuneError : string := String backslash "ufffd".

(** What the encoder writes for a byte below [utf8.RuneSelf]. *)
Definition escape_ascii (b : ascii) : string :=
  let n := code b in
  if Ascii.eqb b quote_char || Ascii.eqb b backslash
  then String backslash (String b EmptyString)
  else if n =? 10 then String backslash "n"
  else if n =? 13 then String backslash "r"
  else if n =? 9 then String backslash "t"
  else if (n <? 0x20) || (n =? 60) || (n =? 62) || (n =? 38)
  then String backslash
         ("u00" +:+ String (hex_digit (Z.shiftr n 4))
                      (String (hex_digit (Z.land n 0xF)) EmptyString))
  else String b EmptyString.

(** U+2028 and U+2029, which the encoder escapes. *)
Definition line_separator (b0 b1 b2 : ascii) : bool :=
  (code b0 =? 0xE2) && (code b1 =? 0x80) && between 0xA8 (code b2) 0xA9.

Fixpoint escape (str : string) : string :=
  match str with
  | EmptyString => EmptyString
  | String b0 r0 =>
      if code b0 <? 0x80 then escape_ascii b0 +:+ escape r0
      else
        match r0 with
        | String b1 r1 =>
            if seq2 b0 b1 then String b0 (String b1 (escape r1))
            else
              match r1 with
              | String b2 r2 =>
                  if seq3 b0 b1 b2 then
                    (if line_separator b0 b1 b2
                     then String backslash
                            ("u202" +:+ String (hex_digit (Z.land (code b2) 0xF)) EmptyString)
                     else String b0 (String b1 (String b2 EmptyString)))
                    +:+ escape r2
                  else
                    match r2 with
                    | String b3 r3 =>
                        if seq4 b0 b1 b2 b3
                        then String b0 (String b1 (String b2 (String b3 (escape r3))))
                        else escaped_RuneError +:+ escape r0
                    | EmptyString => escaped_RuneError +:+ escape r0
                    end
              | EmptyString => escaped_RuneError +:+ escape r0
              end
        | EmptyString => escaped_RuneError +:+ escape r0
        end
  end.

Definition go_encodeString (str : string) : string :=
  dquote +:+ escape str +:+ dquote.

Definition hex_value (c : ascii) : option Z :=
  let n := code c in
  if between 48 n 57 then Some (n - 48)
  else if between 97 n 102 then Some (n - 87)
  else if between 65 n 70 then Some (n - 55)
  else None.

(** [getu4]: the number four hexadecimal digits write. *)
Definition hex4 (h1 h2 h3 h4 : ascii) : option Z :=
  a ← hex_value h1; b ← hex_value h2; c ← hex_value h3; d ← hex_value h4;
  Some (4096 * a + 256 * b + 16 * c + d).

(** The text of a string literal from behind its opening quote, with its
    escapes resolved, and what follows its closing quote.  A surrogate
    that is written alone reads as U+FFFD, as does a byte that starts no
    valid UTF-8 sequence. *)
Fixpoint unquote (str : string) : option (string * string) :=
  let more (head : string) (rest : option (string * string)) :=
    match rest with
    | Some (t, r) => Some (head +:+ t, r)
    | None => None
    end in
  match str with
  | EmptyString => None
  | String c r0 =>
      if Ascii.eqb c quote_char then Some (EmptyString, r0)
      else if Ascii.eqb c backslash then
        match r0 with
        | EmptyString => None
        | String d r1 =>
            if Ascii.eqb d quote_char || Ascii.eqb d backslash || Ascii.eqb d "/"%char
            then more (String d EmptyString) (unquote r1)
            else if Ascii.eqb d "b"%char then more (bytes [8]) (unquote r1)
            else if Ascii.eqb d "f"%char then more (bytes [12]) (unquote r1)
            else if Ascii.eqb d "n"%char then more (bytes [10]) (unquote r1)
            else if Ascii.eqb d "r"%char then more (bytes [13]) (unquote r1)
            else if Ascii.eqb d "t"%char then more (bytes [9]) (unquote r1)
            else if Ascii.eqb d "u"%char then
              match r1 with
              | String h1 (String h2 (String h3 (String h4 r5))) =>
                  match hex4 h1 h2 h3 h4 with
                  | None => None
                  | Some rr =>
                      if between 0xD800 rr 0xDBFF then
                        match r5 with
                        | String e1 (String e2 (String g1 (String g2 (String g3 (String g4 r11))))) =>
                            match (if Ascii.eqb e1 backslash && Ascii.eqb e2 "u"%char
                                   then hex4 g1 g2 g3 g4 else None) with
                            | Some rr1 =>
                                if between 0xDC00 rr1 0xDFFF
                                then more (encoderune
                                             (Z.shiftl (rr - 0xD800) 10 + (rr1 - 0xDC00) + 0x10000))
                                          (unquote r11)
                                else more (encoderune RuneError) (unquote r5)
                            | None => more (encoderune RuneError) (unquote r5)
                            end
                        | _ => more (encoderune RuneError) (unquote r5)
                        end
                      else more (encoderune rr) (unquote r5)
                  end
              | _ => None
              end
            else None
        end
      else if code c <? 0x20 then None
      else if code c <? 0x80 then more (String c EmptyString) (unquote r0)
      else
        match r0 with
        | String b1 r1 =>
            if seq2 c b1 then more (String c (String b1 EmptyString)) (unquote r1)
            else
              match r1 with
              | String b2 r2 =>
                  if seq3 c b1 b2
                  then more (String c (String b1 (String b2 EmptyString))) (unquote r2)
                  else
                    match r2 with
                    | String b3 r3 =>
                        if seq4 c b1 b2 b3
                        then more (String c (String b1 (String b2 (String b3 EmptyString))))
                                  (unquote r3)
                        else more (encoderune RuneError) (unquote r0)
                    | EmptyString => more (encoderune RuneError) (unquote r0)
                    end
              | EmptyString => more (encoderune RuneError) (unquote r0)
              end
        | EmptyString => more (encoderune RuneError) (unquote r0)
        end
  end.

Definition object_key (k : string) : string := dquote +:+ k +:+ dquote +:+ ":".

Definition decode_block (str : string) : option (Block * string) :=
  str ← Reference.strip_prefix ("{" +:+ object_key "datapoint" +:+ dquote) str;
  '(dp, str) ← unquote str;
  str ← Reference.strip_prefix ("," +:+ object_key "normalized-time") str;
  '(nt, str) ← Reference.read_int str;
  str ← Reference.strip_prefix ("," +:+ object_key "type" +:+ dquote) str;
  '(ty, str) ← unquote str;
  str ← Reference.strip_prefix ("," +:+ object_key "timestamp" +:+ dquote) str;
  '(ts, str) ← unquote str;
  str ← Reference.strip_prefix "}" str;
  Some ({| Datapoint := dp; NormalizedTime := nt; Type_ := ty; Timestamp := ts |}, str).

(** The elements behind the first one, up to the closing bracket. *)
Fixpoint decode_more (fuel : nat) (str : string) : option (list Block) :=
  match fuel with
  | O => None
  | S fuel =>
      if String.eqb str "]" then Some []
      else
        r ← Reference.strip_prefix "," str;
        '(b, str') ← decode_block r;
        bs ← decode_more fuel str';
        Some (b :: bs)
  end.

Definition go_Unmarshal (str : string) : result Blocks :=
  if String.eqb str "null" then Val None
  else if String.eqb str "[]" then Val (Some [])
  else
    match r ← Reference.strip_prefix "[" str;
          '(b, str') ← decode_block r;
          bs ← decode_more (String.length str) str';
          Some (b :: bs) with
    | Some l => Val (Some l)
    | None => Err Reference.SyntaxError
    end.

Definition codec : Codec := {|
  encodeString := go_encodeString;
  json_Unmarshal := go_Unmarshal;
|}.

(** A block whose data point is the one byte 0xFF, and what it reads back
    as: the data point is the UTF-8 form of U+FFFD. *)
Definition block_ff : Block :=
  {| Datapoint := bytes [0xFF]; NormalizedTime := 1600000000000000000;
     Type_ := "latency"; Timestamp := "2020|September|13|12|26|40" |}.
Definition block_fffd : Block :=
  {| Datapoint := bytes [0xEF; 0xBF; 0xBD]; NormalizedTime := 1600000000000000000;
     Type_ := "latency"; Timestamp := "2020|September|13|12|26|40" |}.

End GoJSON.

(* ===================================================================== *)
(** ** Strings and paths                                                 *)
(* ===================================================================== *)

Lemma append_cons (x : ascii) (a b : string) : String x a +:+ b = String x (a +:+ b).
Proof. reflexivity. Qed.

Lemma append_empty_l (a : string) : EmptyString +:+ a = a.
Proof. reflexivity. Qed.

Lemma append_assoc (a b c : string) : (a +:+ b) +:+ c = a +:+ (b +:+ c).
Proof.
  induction a as [|x a IH]; [done |].
  by rewrite !append_cons, IH.
Qed.

Lemma append_empty_r (a : string) : a +:+ EmptyString = a.
Proof.
  induction a as [|x a IH]; [done |].
  by rewrite append_cons, IH.
Qed.

Lemma Split_not_nil (s : string) (sep : ascii) : Split s sep ≠ [].
Proof.
  destruct s as [|c s']; simpl; [done |].
  destruct (Ascii.eqb c sep); [done |].
  by destruct (Split s' sep).
Qed.

(** Bring a chain of appends into its right-nested form without empty
    strings. *)
Ltac norm_append :=
  repeat (rewrite append_assoc || rewrite append_empty_l || rewrite append_empty_r).

(** A string without the separator is the only piece of itself. *)
Lemma Split_without_sep (s : string) (sep : ascii) :
  contains_byte s sep = false → Split s sep = [s].
Proof.
  induction s as [|c s' IH]; simpl; [done |].
  destruct (Ascii.eqb c sep); simpl; [done |].
  intros Hs. by rewrite (IH Hs).
Qed.

(** The directory [checkAndCreatePath] looks for: the path up to its last
    separator. *)
Definition parent_dir (path : string) : string :=
  let array := Split path slash in
  Join (take (length array - 1) array) "/".

Lemma parent_dir_bare (path : string) :
  contains_byte path slash = false → parent_dir path = EmptyString.
Proof. intros Hp. unfold parent_dir. by rewrite (Split_without_sep _ _ Hp). Qed.

Example Split_path : Split "storage/sub/route.json" slash = ["storage"; "sub"; "route.json"].
Proof. reflexivity. Qed.

Example Split_rooted : Split "/route.json" slash = [EmptyString; "route.json"].
Proof. reflexivity. Qed.

Example Split_empty : Split EmptyString slash = [EmptyString].
Proof. reflexivity. Qed.

Example parent_dir_nested : parent_dir "storage/sub/route.json" = "storage/sub".
Proof. reflexivity. Qed.

Example parent_dir_rooted : parent_dir "/route.json" = EmptyString.
Proof. reflexivity. Qed.

Example filterChainPath_route :
  filterChainPath "storage/route.json" = "storage_route___json".
Proof. reflexivity. Qed.

(** The forms of U+0041, U+00E9, U+20AC and U+1F600, and of a surrogate. *)
Example encoderune_forms :
  encoderune 0x41 = "A" ∧
  encoderune 0xE9 = bytes [0xC3; 0xA9] ∧
  encoderune 0x20AC = bytes [0xE2; 0x82; 0xAC] ∧
  encoderune 0x1F600 = bytes [0xF0; 0x9F; 0x98; 0x80] ∧
  encoderune 0xD800 = bytes [0xEF; 0xBF; 0xBD].
Proof. by vm_compute. Qed.

Example rune_wraps : rune (2 ^ 32 + 65) = 65 ∧ rune (2 ^ 31) = - 2 ^ 31.
Proof. by vm_compute. Qed.

(* ===================================================================== *)
(** ** The JSON encoder on blocks                                        *)
(* ===================================================================== *)

Section Encoder.
Context `{Codec}.

Lemma json_Marshal_Block (b : Block) :
  json_Marshal (Block_value b) = Val (Block_json b).
Proof.
  unfold Block_value, Block_json. simpl.
  by norm_append.
Qed.

(** The JSON text of a slice of blocks, written out. *)
Definition Blocks_json (a : Blocks) : string :=
  match a with
  | None => "null"
  | Some l => "[" +:+ Join (Block_json <$> l) "," +:+ "]"
  end.

Lemma json_Marshal_Blocks (a : Blocks) :
  json_Marshal (Blocks_value a) = Val (Blocks_json a).
Proof.
  destruct a as [l|]; [| done].
  unfold Blocks_value, Blocks_json. cbn [fmap option_fmap option_map json_Marshal].
  match goal with
  | |- context [?g true (map Block_value l)] => set (go := g)
  end.
  assert (Hcons : ∀ first x rest,
    go first (x :: rest) =
    match json_Marshal x with
    | Err e => Err e
    | Val jx =>
        match go false rest with
        | Err e => Err e
        | Val jr => Val ((if first then EmptyString else ",") +:+ jx +:+ jr)
        end
    end) by reflexivity.
  assert (Hgo : ∀ (l : list Block) b,
    go false (map Block_value (b :: l)) = Val ("," +:+ Join (Block_json <$> (b :: l)) ",")).
  { clear l. intros l. induction l as [|b' l IH]; intros b.
    - cbn [map]. rewrite Hcons, json_Marshal_Block. cbn. by norm_append.
    - specialize (IH b'). cbn [map] in IH |- *.
      rewrite Hcons, json_Marshal_Block, IH. cbn. by norm_append. }
  destruct l as [|b l]; [done |].
  cbn [map]. rewrite Hcons, json_Marshal_Block.
  destruct l as [|b' l].
  - cbn. by norm_append.
  - rewrite (Hgo l b'). cbn. by norm_append.
Qed.

(** A value built from strings, integers, structs and slices alone. *)
Fixpoint supported (v : GoValue) : bool :=
  match v with
  | VString _ | VInt64 _ => true
  | VStruct fs => forallb (λ kv, match kv with (_, x) => supported x end) fs
  | VSlice None => true
  | VSlice (Some xs) => forallb supported xs
  | VUnsupported => false
  end.

(** [json.Marshal] returns no error on such a value. *)
Lemma json_Marshal_supported (v : GoValue) :
  supported v = true → ∃ j, json_Marshal v = Val j.
Proof.
  revert v. fix IH 1. intros [s|n|fs|[xs|]|] Hv; try discriminate;
    try (eexists; reflexivity).
  - cbn [json_Marshal].
    match goal with
    | |- context [?g true fs] => set (go := g)
    end.
    assert (Hgo : ∀ first, ∃ j, go first fs = Val j).
    { cbn [supported] in Hv. clear -IH Hv.
      induction fs as [|[k x] fs IHfs]; intros first.
      - by eexists.
      - cbn [forallb] in Hv. apply andb_prop in Hv as [Hx Hfs].
        destruct (IH x Hx) as [jx Hjx], (IHfs Hfs false) as [jr Hjr].
        eexists. unfold go in *. cbn [go]. rewrite Hjx.
        fold go in Hjr |- *. by rewrite Hjr. }
    destruct (Hgo true) as [j ->]. by eexists.
  - cbn [json_Marshal].
    match goal with
    | |- context [?g true xs] => set (go := g)
    end.
    assert (Hgo : ∀ first, ∃ j, go first xs = Val j).
    { cbn [supported] in Hv. clear -IH Hv.
      induction xs as [|x xs IHxs]; intros first.
      - by eexists.
      - cbn [forallb] in Hv. apply andb_prop in Hv as [Hx Hxs].
        destruct (IH x Hx) as [jx Hjx], (IHxs Hxs false) as [jr Hjr].
        eexists. unfold go in *. cbn [go]. rewrite Hjx.
        fold go in Hjr |- *. by rewrite Hjr. }
    destruct (Hgo true) as [j ->]. by eexists.
Qed.

Lemma Block_value_supported (b : Block) : supported (Block_value b) = true.
Proof. reflexivity. Qed.

Lemma Encode_run {S : Type} (b : Block) (s : S) :
  Encode b s = (Ok (Block_json b), s).
Proof. unfold Encode. by rewrite json_Marshal_Block. Qed.

Lemma parseToJSON_run {S : Type} (a : Blocks) (s : S) :
  parseToJSON a s = (Ok (Blocks_json a), s).
Proof. unfold parseToJSON. by rewrite json_Marshal_Blocks. Qed.

End Encoder.

(* ===================================================================== *)
(** ** Storage helpers                                                   *)
(* ===================================================================== *)

Section Storage.
Context {W : Type} `{OS W} `{Codec}.
Implicit Types (w : @World W) (c : Chain).

Lemma parse_run path w :
  parse path w =
  (Ok match ReadFile path (disk w) with
      | Val res => (Some res, None)
      | Err _ => (None, Some NoFile)
      end, w).
Proof. unfold parse, bind, get, ret. by destruct (ReadFile path (disk w)). Qed.

Lemma checkAndCreatePath_run path w :
  checkAndCreatePath path w =
  match Stat (parent_dir path) (disk w) with
  | None => (Ok tt, w)
  | Some _ =>
      match MkdirAll (parent_dir path) (disk w) with
      | (d, None) => (Ok tt, set_disk d w)
      | (d, Some e) => (Panic (PanicError e), set_disk d w)
      end
  end.
Proof.
  unfold checkAndCreatePath, parent_dir, drop_last.
  pose proof (Split_not_nil path slash) as Hne.
  destruct (Split path slash) as [|p ps] eqn:Hs; [done |].
  unfold bind, get, ret, modify, panic.
  destruct (Stat _ (disk w)) as [err|]; [| done].
  by destruct (MkdirAll _ (disk w)) as [d [e|]].
Qed.

Lemma saveToHDD_run path data w :
  saveToHDD path data w =
  match checkAndCreatePath path w with
  | (Ok _, w1) =>
      let '(d, e) := WriteFile path data (disk w1) in (Ok e, set_disk d w1)
  | (Panic v, w1) => (Panic v, w1)
  end.
Proof.
  unfold saveToHDD, bind, get, modify, ret.
  destruct (checkAndCreatePath path w) as [[[]|v] w1]; [| done].
  by destruct (WriteFile path data (disk w1)) as [d [e|]].
Qed.

(** What is written reads back: after [saveToHDD] returns the nil error,
    the file holds the data. *)
Lemma saveToHDD_ReadFile path data w w1 :
  saveToHDD path data w = (Ok None, w1) → ReadFile path (disk w1) = Val data.
Proof.
  rewrite saveToHDD_run.
  destruct (checkAndCreatePath path w) as [[[]|v] w0]; [| done].
  destruct (WriteFile path data (disk w0)) as [d e] eqn:Hw.
  intros [= -> <-]. simpl. by apply WriteFile_ReadFile in Hw.
Qed.

(** [saveToHDD] returns the nil error when the directory is there and
    the write goes through. *)
Lemma saveToHDD_ok path data w d :
  Stat (parent_dir path) (disk w) = None →
  WriteFile path data (disk w) = (d, None) →
  saveToHDD path data w = (Ok None, set_disk d w).
Proof.
  intros Hstat Hwrite.
  by rewrite saveToHDD_run, checkAndCreatePath_run, Hstat, Hwrite.
Qed.

(** A path without a separator has the empty string for its directory,
    and [checkAndCreatePath] panics on it. *)
Lemma checkAndCreatePath_bare path w :
  contains_byte path slash = false →
  ∃ e, MkdirAll EmptyString (disk w) = (disk w, Some e) ∧
       checkAndCreatePath path w = (Panic (PanicError e), w).
Proof.
  intros Hbare. destruct (MkdirAll_empty (disk w)) as [e He].
  exists e. split; [done |].
  rewrite checkAndCreatePath_run, (parent_dir_bare _ Hbare), He.
  pose proof (Stat_empty (disk w)) as Hs.
  destruct (Stat EmptyString (disk w)) as [err|]; [| done].
  by destruct w.
Qed.

(** The block slice the backing file decodes to. *)
Definition stored (path : string) w : result Blocks :=
  match ReadFile path (disk w) with
  | Val raw => json_Unmarshal raw
  | Err e => Err e
  end.

(** The decoder reads back the slice from the text the encoder writes for
    it.  The package relies on this of encoding/json. *)
Definition reads_back (a : Blocks) : Prop :=
  json_Unmarshal (Blocks_json a) = Val a.

End Storage.

(* ===================================================================== *)
(** ** Chain: Init                                                       *)
(* ===================================================================== *)

Section ChainInit.
Context {W : Type} `{OS W} `{Codec}.
Implicit Types (w : @World W) (c : Chain).

Lemma io_run {R A : Type} (m : M (@World W) A) (x : R) w :
  io m (x, w) = ((m w).1, (x, (m w).2)).
Proof. unfold io, zoom. simpl. by destruct (m w). Qed.

(** The world after [Init] has logged that it creates the chain. *)
Definition announced c w : @World W :=
  {| disk := disk w;
     logged := logged w ++ [(INFO, "creating in-memory chain: " +:+ Name c +:+ LF)] |}.

(** The chain with its in-memory sequence reset. *)
Definition emptied c : Chain := set_LengthElements 0 (set_Chain_ (Some []) c).

Lemma Init_readable c w res :
  ReadFile (Path c) (disk w) = Val res →
  Init (c, w) = (Ok tt, (emptied c, w)).
Proof.
  intros Hread. unfold Init, bind, this. simpl.
  rewrite io_run, parse_run, Hread. reflexivity.
Qed.

Lemma Init_unreadable c w e :
  ReadFile (Path c) (disk w) = Err e →
  Init (c, w) =
  match saveToHDD (Path c) "[]" (announced c w) with
  | (Ok None, w1) => (Ok tt, (emptied c, w1))
  | (Ok (Some err), w1) => (Panic (PanicError err), (emptied c, w1))
  | (Panic v, w1) => (Panic v, (emptied c, w1))
  end.
Proof.
  intros Hread. unfold Init, bind, this. simpl.
  rewrite io_run, parse_run, Hread. simpl.
  rewrite !io_run. simpl.
  fold (announced c w).
  by destruct (saveToHDD (Path c) "[]" (announced c w)) as [[[err|]|v] w1].
Qed.

End ChainInit.

(* ===================================================================== *)
(** ** Chain: Append and commit                                          *)
(* ===================================================================== *)

Section ChainOps.
Context {W : Type} `{OS W} `{Codec}.
Implicit Types (w : @World W) (c : Chain).

(** The chain after [Append b]. *)
Definition appended (b : Block) c : Chain :=
  {| Path := Path c; Name := Name c; Route := Route c;
     Chain_ := append (Chain_ c) [b];
     LengthElements := len (append (Chain_ c) [b]);
     containsNewBlocks := true;
     inActiveIterations := 0 |}.

Lemma Append_run b c w : Append b (c, w) = (Ok tt, (appended b c, w)).
Proof.
  unfold Append, bind, this, update, modify, ret. simpl.
  destruct (inActiveIterations c =? 0) eqn:Hz; simpl; [| done].
  apply Z.eqb_eq in Hz. unfold appended. by rewrite <- Hz.
Qed.

(** [Append] called for each block of a list, in order. *)
Fixpoint Appends (bs : list Block) : @Method W Chain unit :=
  match bs with
  | [] => ret tt
  | b :: bs => Append b;; Appends bs
  end.

Definition appended_all (bs : list Block) c : Chain :=
  fold_left (λ c b, appended b c) bs c.

Lemma Appends_run bs c w : Appends bs (c, w) = (Ok tt, (appended_all bs c, w)).
Proof.
  revert c. induction bs as [|b bs IH]; intros c; [done |].
  cbn [Appends]. unfold bind. by rewrite Append_run, IH.
Qed.

Lemma appended_all_Path bs c : Path (appended_all bs c) = Path c.
Proof.
  revert c. induction bs as [|b bs IH]; intros c; [done |].
  change (appended_all (b :: bs) c) with (appended_all bs (appended b c)).
  by rewrite IH.
Qed.

Lemma elems_append (s : Blocks) (xs : list Block) :
  elems (append s xs) = elems s ++ xs.
Proof. destruct s as [l|], xs as [|x xs]; done. Qed.

Lemma appended_all_elems bs c :
  elems (Chain_ (appended_all bs c)) = elems (Chain_ c) ++ bs.
Proof.
  revert c. induction bs as [|b bs IH]; intros c.
  - by rewrite app_nil_r.
  - change (appended_all (b :: bs) c) with (appended_all bs (appended b c)).
    rewrite IH. simpl. rewrite elems_append. by rewrite <- app_assoc.
Qed.

Lemma appended_all_flag bs c :
  bs ≠ [] → containsNewBlocks (appended_all bs c) = true.
Proof.
  revert c. induction bs as [|b bs IH]; intros c Hne; [done |].
  change (appended_all (b :: bs) c) with (appended_all bs (appended b c)).
  destruct bs as [|b' bs]; [done |]. by apply IH.
Qed.

(** The chain after a [commit] that returned. *)
Definition committed c : Chain :=
  set_containsNewBlocks false (set_Chain_ (Some []) c).

Lemma commit_unreadable c w e :
  ReadFile (Path c) (disk w) = Err e →
  commit (c, w) = (Panic (PanicError NoFile), (c, w)).
Proof.
  intros Hread. unfold commit, bind, this. simpl.
  by rewrite io_run, parse_run, Hread.
Qed.

Lemma commit_undecodable c w raw e :
  ReadFile (Path c) (disk w) = Val raw →
  json_Unmarshal raw = Err e →
  commit (c, w) = (Panic (PanicError e), (c, w)).
Proof.
  intros Hread Hdec. unfold commit, bind, this. simpl.
  rewrite io_run, parse_run, Hread. simpl.
  unfold loadFromStorage. by rewrite Hdec.
Qed.

Lemma commit_run c w raw old :
  ReadFile (Path c) (disk w) = Val raw →
  json_Unmarshal raw = Val old →
  commit (c, w) =
  match saveToHDD (Path c) (Blocks_json (mergeBlocksSlice old (Chain_ c))) w with
  | (Ok None, w1) => (Ok tt, (committed c, w1))
  | (Ok (Some err), w1) => (Panic (PanicError err), (c, w1))
  | (Panic v, w1) => (Panic v, (c, w1))
  end.
Proof.
  intros Hread Hdec. unfold commit, bind, this. simpl.
  rewrite io_run, parse_run, Hread. simpl.
  unfold loadFromStorage. rewrite Hdec. unfold ret at 1.
  rewrite parseToJSON_run, io_run.
  by destruct (saveToHDD _ _ w) as [[[err|]|v] w1].
Qed.

(** A [commit] that returned has read and decoded the file and saved the
    merged blocks. *)
Lemma commit_Ok c w c' w' :
  commit (c, w) = (Ok tt, (c', w')) →
  ∃ raw old,
    ReadFile (Path c) (disk w) = Val raw ∧
    json_Unmarshal raw = Val old ∧
    saveToHDD (Path c) (Blocks_json (mergeBlocksSlice old (Chain_ c))) w = (Ok None, w') ∧
    c' = committed c.
Proof.
  intros Hc.
  destruct (ReadFile (Path c) (disk w)) as [raw|e] eqn:Hread.
  2: { by rewrite (commit_unreadable _ _ _ Hread) in Hc. }
  destruct (json_Unmarshal raw) as [old|e] eqn:Hdec.
  2: { by rewrite (commit_undecodable _ _ _ _ Hread Hdec) in Hc. }
  rewrite (commit_run _ _ _ _ Hread Hdec) in Hc.
  exists raw, old.
  destruct (saveToHDD _ _ w) as [[[err|]|v] w1]; try done.
  by injection Hc as <- <-.
Qed.

(** [commit] returns when the file decodes, its directory is there and
    the write goes through. *)
Lemma commit_returns c w raw old d :
  ReadFile (Path c) (disk w) = Val raw →
  json_Unmarshal raw = Val old →
  Stat (parent_dir (Path c)) (disk w) = None →
  WriteFile (Path c) (Blocks_json (mergeBlocksSlice old (Chain_ c))) (disk w) = (d, None) →
  commit (c, w) = (Ok tt, (committed c, set_disk d w)).
Proof.
  intros Hread Hdec Hstat Hwrite.
  by rewrite (commit_run _ _ _ _ Hread Hdec), (saveToHDD_ok _ _ _ _ Hstat Hwrite).
Qed.

(** On a path without a separator [commit] panics in [checkAndCreatePath]
    even when the file is there, as [Init] does when it is not. *)
Lemma commit_panics_on_bare_path c w raw old :
  contains_byte (Path c) slash = false →
  ReadFile (Path c) (disk w) = Val raw →
  json_Unmarshal raw = Val old →
  ∃ e, commit (c, w) = (Panic (PanicError e), (c, w)).
Proof.
  intros Hbare Hread Hdec.
  destruct (checkAndCreatePath_bare (Path c) w Hbare) as (e & _ & Hcheck).
  exists e. by rewrite (commit_run _ _ _ _ Hread Hdec), saveToHDD_run, Hcheck.
Qed.

End ChainOps.

(* ===================================================================== *)
(** ** Init and Refresh against an unreadable path                       *)
(* ===================================================================== *)

Section Unreadable.
Context {W : Type} `{OS W} `{Codec}.
Implicit Types (w : @World W) (c : Chain).

(** C6.  [Init] leaves the in-memory sequence empty and [LengthElements]
    zero whatever the state of the backing file, and whether it returns or
    panics.  A readable file is left as it is and its content is not
    loaded.  For an unreadable file [Init] saves the text of the empty
    array to the path: the world it leaves is the one [saveToHDD] left, it
    returns exactly when [saveToHDD] returns the nil error, and then the
    path holds that text. *)
Theorem Init_leaves_memory_empty c w :
  ∃ r c' w', Init (c, w) = (r, (c', w')) ∧
    Chain_ c' = Some [] ∧ elems (Chain_ c') = [] ∧ LengthElements c' = 0 ∧
    (∀ res, ReadFile (Path c) (disk w) = Val res → r = Ok tt ∧ w' = w) ∧
    (∀ e, ReadFile (Path c) (disk w) = Err e →
       w' = (saveToHDD (Path c) "[]" (announced c w)).2 ∧
       (r = Ok tt ↔ saveToHDD (Path c) "[]" (announced c w) = (Ok None, w')) ∧
       (r = Ok tt → ReadFile (Path c) (disk w') = Val "[]")).
Proof.
  destruct (ReadFile (Path c) (disk w)) as [res|e] eqn:Hread.
  - exists (Ok tt), (emptied c), w.
    rewrite (Init_readable _ _ _ Hread). repeat split; try done.
  - rewrite (Init_unreadable _ _ _ Hread).
    destruct (saveToHDD (Path c) "[]" (announced c w)) as [[[err|]|v] w1] eqn:Hsave.
    + exists (Panic (PanicError err)), (emptied c), w1.
      repeat split; done.
    + exists (Ok tt), (emptied c), w1.
      repeat split; try done.
      intros _. by apply saveToHDD_ReadFile in Hsave.
    + exists (Panic v), (emptied c), w1.
      repeat split; done.
Qed.

(** [Init] on an unreadable path returns once the directory is there and
    the write goes through. *)
Lemma Init_creates c w e d :
  ReadFile (Path c) (disk w) = Err e →
  Stat (parent_dir (Path c)) (disk w) = None →
  WriteFile (Path c) "[]" (disk w) = (d, None) →
  Init (c, w) = (Ok tt, (emptied c, set_disk d (announced c w))).
Proof.
  intros Hread Hstat Hwrite.
  rewrite (Init_unreadable _ _ _ Hread).
  by rewrite (saveToHDD_ok (Path c) "[]" (announced c w) d Hstat Hwrite).
Qed.

(** C10.  On a path without a separator whose file cannot be read, [Init]
    panics with the error of [MkdirAll] on the empty string: the disk is
    as it was, so the file is still not there. *)
Theorem Init_panics_on_bare_path c w e0 :
  contains_byte (Path c) slash = false →
  ReadFile (Path c) (disk w) = Err e0 →
  ∃ e, parent_dir (Path c) = EmptyString ∧
       MkdirAll EmptyString (disk w) = (disk w, Some e) ∧
       Init (c, w) = (Panic (PanicError e), (emptied c, announced c w)) ∧
       ReadFile (Path c) (disk (announced c w)) = Err e0.
Proof.
  intros Hbare Hread.
  destruct (checkAndCreatePath_bare (Path c) (announced c w) Hbare) as (e & Hmk & Hcheck).
  exists e. split; [by apply parent_dir_bare |]. split; [done |]. split; [| done].
  rewrite (Init_unreadable _ _ _ Hread), saveToHDD_run, Hcheck. done.
Qed.

(** C3, as the code runs.  On a path that cannot be read, [Refresh] logs
    the error and then panics on the nil pointer [parse] returned: the
    call does not return. *)
Theorem Refresh_panics_when_unreadable (ro : ChainReadOnly) w e0 :
  ReadFile (ro_Path ro) (disk w) = Err e0 →
  Refresh (ro, w) =
  (Panic NilDereference,
   (ro, {| disk := disk w;
           logged := logged w ++
             [(ERROR, "error reading the chain: " +:+ ro_Path ro +:+ LF)] |})).
Proof.
  intros Hread. unfold Refresh, bind, this. simpl.
  rewrite io_run, parse_run, Hread. reflexivity.
Qed.

(** [Refresh] on a file that decodes replaces the in-memory sequence. *)
Lemma Refresh_run (ro : ChainReadOnly) w raw loaded :
  ReadFile (ro_Path ro) (disk w) = Val raw →
  json_Unmarshal raw = Val loaded →
  Refresh (ro, w) = (Ok tt, (set_ro_Chain loaded ro, w)).
Proof.
  intros Hread Hdec. unfold Refresh, bind, this. simpl.
  rewrite io_run, parse_run, Hread. simpl.
  unfold loadFromStorage. by rewrite Hdec.
Qed.

End Unreadable.

(* ===================================================================== *)
(** ** Appending, committing and reading back                            *)
(* ===================================================================== *)

Section Persistence.
Context {W : Type} `{OS W} `{Codec}.
Implicit Types (w : @World W) (c : Chain).

Lemma commit_resets c w c' w' :
  commit (c, w) = (Ok tt, (c', w')) →
  Chain_ c' = Some [] ∧ elems (Chain_ c') = [] ∧ containsNewBlocks c' = false ∧
  Path c' = Path c.
Proof. intros Hc. by destruct (commit_Ok _ _ _ _ Hc) as (raw & old & _ & _ & _ & ->). Qed.

(** What the file holds after blocks were appended and committed: the
    text of the blocks it decoded to before, followed by the blocks that
    were in memory and the appended ones. *)
Lemma Appends_commit_saved c w bs old c1 w1 :
  stored (Path c) w = Val old →
  (Appends bs;; commit) (c, w) = (Ok tt, (c1, w1)) →
  ReadFile (Path c) (disk w1) =
    Val (Blocks_json (append old (elems (Chain_ c) ++ bs))) ∧
  c1 = committed (appended_all bs c).
Proof.
  intros Hstored Hrun. unfold bind in Hrun. rewrite Appends_run in Hrun.
  destruct (commit_Ok _ _ _ _ Hrun) as (raw & old' & Hread & Hdec & Hsave & ->).
  rewrite appended_all_Path in Hread, Hsave.
  unfold stored in Hstored. rewrite Hread, Hdec in Hstored.
  injection Hstored as ->.
  apply saveToHDD_ReadFile in Hsave.
  unfold mergeBlocksSlice in Hsave. by rewrite appended_all_elems in Hsave.
Qed.



(* ------------------------------------------------------------------- *)
(** *** The flag of new blocks along the life of a chain                *)
(* ------------------------------------------------------------------- *)

(** The operations that change a chain. *)
Inductive op : Type :=
| OpAppend (b : Block)
| OpCommit.

Definition run_op (o : op) : @Method W Chain unit :=
  match o with
  | OpAppend b => Append b
  | OpCommit => commit
  end.

Fixpoint run_ops (ops : list op) : @Method W Chain unit :=
  match ops with
  | [] => ret tt
  | o :: ops => run_op o;; run_ops ops
  end.

(** The blocks appended after the last commit, behind those in [acc]. *)
Fixpoint pending (acc : list Block) (ops : list op) : list Block :=
  match ops with
  | [] => acc
  | OpAppend b :: ops => pending (acc ++ [b]) ops
  | OpCommit :: ops => pending [] ops
  end.

Lemma run_ops_invariant ops : ∀ c w c' w' (fresh : Prop),
  (containsNewBlocks c = true ↔ elems (Chain_ c) ≠ [] ∨ fresh) →
  run_ops ops (c, w) = (Ok tt, (c', w')) →
  elems (Chain_ c') = pending (elems (Chain_ c)) ops ∧
  (containsNewBlocks c' = true ↔ elems (Chain_ c') ≠ [] ∨ (fresh ∧ OpCommit ∉ ops)).
Proof.
  induction ops as [|o ops IH]; intros c w c' w' fresh Hinv Hrun.
  - injection Hrun as <- <-. split; [done |].
    rewrite Hinv. split; intros [Hne | Hf]; auto.
    + right. split; [done |]. by apply not_elem_of_nil.
    + right. by destruct Hf.
  - cbn [run_ops] in Hrun. unfold bind in Hrun.
    destruct o as [b|]; cbn [run_op] in Hrun.
    + rewrite Append_run in Hrun.
      assert (Hinv' : containsNewBlocks (appended b c) = true ↔
                      elems (Chain_ (appended b c)) ≠ [] ∨ fresh).
      { split; [| done]. intros _. left. cbn [appended Chain_].
        rewrite elems_append. by destruct (elems (Chain_ c)). }
      destruct (IH _ _ _ _ fresh Hinv' Hrun) as [Hel Hflag].
      cbn [appended Chain_] in Hel. rewrite elems_append in Hel.
      split; [done |]. rewrite Hflag.
      split; intros [Hne | [Hf Hnc]]; auto; right; split; auto.
      * intros [Heq | Hin]%elem_of_cons; [done | by apply Hnc].
      * intros Hin. apply Hnc. by apply elem_of_cons; right.
    + destruct (commit (c, w)) as [[[]|v] [c2 w2]] eqn:Hc; [| done].
      destruct (commit_resets _ _ _ _ Hc) as (_ & Hel2 & Hflag2 & _).
      assert (Hinv' : containsNewBlocks c2 = true ↔ elems (Chain_ c2) ≠ [] ∨ False).
      { rewrite Hflag2, Hel2. split; [done | by intros [? | ?]]. }
      destruct (IH _ _ _ _ False Hinv' Hrun) as [Hel Hflag].
      rewrite Hel2 in Hel. split; [done |]. rewrite Hflag.
      split; intros [Hne | [Hf Hnc]]; auto.
      exfalso. apply Hnc. by apply elem_of_cons; left.
Qed.

(** C2, amended.  In every state a chain reaches from [NewChain] by
    [Append] and [commit] calls that returned, the in-memory sequence
    holds the blocks appended since the last commit, and the flag is true
    exactly when that sequence is not empty or no commit has run yet. *)
Theorem containsNewBlocks_reachable path w ops c' w' :
  run_ops ops (NewChain path, w) = (Ok tt, (c', w')) →
  elems (Chain_ c') = pending [] ops ∧
  (containsNewBlocks c' = true ↔ elems (Chain_ c') ≠ [] ∨ OpCommit ∉ ops).
Proof.
  intros Hrun.
  assert (Hinv : containsNewBlocks (NewChain path) = true ↔
                 elems (Chain_ (NewChain path)) ≠ [] ∨ True) by (split; auto).
  destruct (run_ops_invariant ops _ _ _ _ True Hinv Hrun) as [Hel Hflag].
  split; [done |]. rewrite Hflag.
  split; intros [Hne | Hc]; auto.
  right. by destruct Hc.
Qed.

(* ------------------------------------------------------------------- *)
(** *** The scheduler on a chain without new blocks                     *)
(* ------------------------------------------------------------------- *)

(** The chain after a turn of the scheduler that found no new blocks. *)
Definition idled c : Chain :=
  set_inActiveIterations ((inActiveIterations c + 1) mod 2 ^ 32) c.

Lemma flush_idle c w :
  containsNewBlocks c = false → flush (c, w) = (Ok tt, (idled c, w)).
Proof. intros Hflag. unfold flush, bind, this. simpl. by rewrite Hflag. Qed.

Lemma flush_dirty c w :
  containsNewBlocks c = true → flush (c, w) = commit (c, w).
Proof. intros Hflag. unfold flush, bind, this. simpl. by rewrite Hflag. Qed.

Lemma call_flush_idle (l : loc) c (s : @Sys W) :
  heap s !! l = Some c →
  containsNewBlocks c = false →
  call (Some l) flush s =
  (Ok tt, {| heap := <[l := idled c]> (heap s); world := world s |}).
Proof.
  intros Hl Hflag. unfold call. rewrite Hl.
  by rewrite (flush_idle _ _ Hflag).
Qed.


End Persistence.

(* ===================================================================== *)
(** ** A turn of the scheduler                                           *)
(* ===================================================================== *)

Section Turn.
Context {W : Type} `{OS W} `{Codec}.

(** While no chain has new blocks, a turn over allocated chains returns,
    writes nothing, and leaves every chain without new blocks. *)
Lemma range_idle (chains : list ptr) : ∀ s : @Sys W,
  (∀ p, p ∈ chains → ∃ l : loc, p = Some l ∧ is_Some (heap s !! l)) →
  (∀ (l : loc) c, heap s !! l = Some c → containsNewBlocks c = false) →
  ∃ h, range chains s = (Ok tt, {| heap := h; world := world s |}) ∧
       (∀ l : loc, is_Some (h !! l) ↔ is_Some (heap s !! l)) ∧
       (∀ (l : loc) c, h !! l = Some c → containsNewBlocks c = false).
Proof.
  induction chains as [|p chains IH]; intros s Halloc Hclean.
  - exists (heap s). by destruct s.
  - destruct (Halloc p) as (l & -> & [c Hl]); [by left |].
    cbn [range]. unfold bind.
    rewrite (call_flush_idle l c s Hl (Hclean l c Hl)).
    set (s1 := {| heap := <[l := idled c]> (heap s); world := world s |}).
    assert (Hdom : ∀ l' : loc, is_Some (heap s1 !! l') ↔ is_Some (heap s !! l')).
    { intros l'. cbn [s1 heap]. destruct (decide (l = l')) as [<- | Hne].
      - rewrite lookup_insert_eq, Hl. split; eauto.
      - by rewrite lookup_insert_ne. }
    destruct (IH s1) as (h & Hrun & Hh & Hflags).
    + intros p' Hp'. destruct (Halloc p') as (l' & -> & Hl'); [by right |].
      exists l'. split; [done |]. by apply Hdom.
    + intros l' c'. cbn [s1 heap]. destruct (decide (l = l')) as [<- | Hne].
      * rewrite lookup_insert_eq. intros [= <-]. by apply (Hclean l c).
      * rewrite lookup_insert_ne by done. apply Hclean.
    + exists h. split; [done |]. split; [| done].
      intros l'. by rewrite Hh, Hdom.
Qed.

Lemma tick_idle (cs : ChainSet) (order : list string) (s : @Sys W) :
  (∀ name, name ∈ order →
     ∃ l : loc, Cmap cs !! name = Some (Some l) ∧ is_Some (heap s !! l)) →
  (∀ (l : loc) c, heap s !! l = Some c → containsNewBlocks c = false) →
  ∃ h, tick cs order s = (Ok tt, {| heap := h; world := world s |}).
Proof.
  intros Hreg Hclean. unfold tick.
  destruct (range_idle (index cs <$> order) s) as (h & Hrun & _); [| done | by exists h].
  intros p (name & -> & Hname)%list_elem_of_fmap.
  destruct (Hreg name Hname) as (l & Hl & Hs).
  exists l. split; [| done]. unfold index. by rewrite Hl.
Qed.

(** With the flush by space, which is not implemented, [Run] does nothing. *)
Lemma Run_FlushAsSpace (cs : ChainSet) (turns : list (list string)) (s : @Sys W) :
  flushType cs = FlushAsSpace → Run cs turns s = (Ok tt, s).
Proof. intros Hft. unfold Run. by rewrite Hft. Qed.

End Turn.

(* ===================================================================== *)
(** ** ChainSet: Register and Get                                        *)
(* ===================================================================== *)

Lemma Get_Register (cs : ChainSet) (name : string) (chain : ptr) :
  Get (Register cs name chain) name = (chain, true).
Proof. unfold Get, Register. cbn [Cmap]. by rewrite lookup_insert_eq. Qed.

Lemma Get_Register_other (cs : ChainSet) (name other : string) (chain : ptr) :
  name ≠ other → Get (Register cs name chain) other = Get cs other.
Proof. intros Hne. unfold Get, Register. cbn [Cmap]. by rewrite lookup_insert_ne. Qed.

Lemma Get_unregistered (cs : ChainSet) (name : string) :
  Cmap cs !! name = None → Get cs name = (None, false).
Proof. intros Hn. unfold Get. by rewrite Hn. Qed.

(** C7.  A second [Register] under a name replaces the mapping of the
    first: [Get] then gives the second chain, and reports it found. *)
Theorem Register_twice_Get (cs : ChainSet) (x : string) (chain1 chain2 : ptr) :
  Get (Register (Register cs x chain1) x chain2) x = (chain2, true) ∧
  Cmap (Register (Register cs x chain1) x chain2) = Cmap (Register cs x chain2).
Proof.
  split.
  - apply Get_Register.
  - unfold Register. cbn [Cmap]. apply insert_insert_eq.
Qed.

(* ===================================================================== *)
(** ** Block: Encode and GetNormalizedTimeStringified                    *)
(* ===================================================================== *)

(** C8.  [Encode] returns the JSON object of the block and never panics:
    [json.Marshal] gives an error only on a value it does not support, and
    a block is made of strings and an integer. *)
Theorem Encode_never_panics `{Codec} {S : Type} (b : Block) (s : S) :
  supported (Block_value b) = true ∧
  json_Marshal (Block_value b) = Val (Block_json b) ∧
  Encode b s = (Ok (Block_json b), s) ∧
  (∀ v s', Encode b s ≠ (Panic v, s')).
Proof.
  split; [apply Block_value_supported |].
  split; [apply json_Marshal_Block |].
  rewrite Encode_run. split; [done |]. by intros v s'.
Qed.

Lemma rune_range (x : Z) : - 2 ^ 31 ≤ rune x < 2 ^ 31.
Proof.
  unfold rune.
  pose proof (Z.mod_pos_bound (x + 2 ^ 31) (2 ^ 32) eq_refl). lia.
Qed.

Lemma rune_small (x : Z) : - 2 ^ 31 ≤ x < 2 ^ 31 → rune x = x.
Proof. intros Hx. unfold rune. rewrite Z.mod_small; lia. Qed.

Lemma uint32_nonneg (r : Z) : 0 ≤ r < 2 ^ 31 → uint32 r = r.
Proof. intros Hr. unfold uint32. apply Z.mod_small. lia. Qed.

Lemma uint32_neg (r : Z) : - 2 ^ 31 ≤ r < 0 → uint32 r = r + 2 ^ 32.
Proof.
  intros Hr. unfold uint32. symmetry.
  apply (Z.mod_unique_pos r (2 ^ 32) (-1) (r + 2 ^ 32)); lia.
Qed.

(** Unfold the comparisons of the rune tables and decide them. *)
Ltac rune_cases :=
  unfold rune1Max, rune2Max, rune3Max, MaxRune, surrogateMin, surrogateMax in *;
  repeat match goal with
         | |- context [?a <=? ?b] => destruct (Z.leb_spec a b); cbn [andb orb negb]
         | |- context [?a <? ?b] => destruct (Z.ltb_spec a b); cbn [andb orb negb]
         end;
  try reflexivity; try lia.

Lemma encoderune_valid (r : Z) :
  valid_rune r = true → utf8_of_code_point r = Some (encoderune r).
Proof.
  intros Hv. unfold utf8_of_code_point. rewrite Hv. cbn [negb].
  assert (Hr : 0 ≤ r ≤ MaxRune ∧ ¬ (surrogateMin ≤ r ≤ surrogateMax)).
  { unfold valid_rune in Hv. revert Hv. rune_cases; intros; try discriminate; lia. }
  unfold encoderune. rewrite uint32_nonneg by (unfold MaxRune in Hr; lia).
  destruct Hr as [Hr Hs]. rune_cases.
Qed.

Lemma encoderune_invalid (r : Z) :
  - 2 ^ 31 ≤ r < 2 ^ 31 → valid_rune r = false → encoderune r = enc3 RuneError.
Proof.
  intros Hr Hv. unfold encoderune.
  destruct (Z.lt_ge_cases r 0) as [Hneg | Hpos].
  - rewrite uint32_neg by lia. rune_cases.
  - rewrite uint32_nonneg by lia.
    unfold valid_rune in Hv. revert Hv. rune_cases; intros; discriminate.
Qed.

(** The bytes of a decimal numeral: the digits and the minus sign. *)
Definition decimal_char (c : ascii) : bool :=
  let n := Z.of_N (N_of_ascii c) in
  (n =? 45) || ((48 <=? n) && (n <=? 57)).

Lemma pretty_N_char_decimal (x : N) : decimal_char (pretty_N_char x) = true.
Proof. unfold pretty_N_char. by repeat case_match. Qed.

Lemma pretty_N_go_head (x : N) : ∀ s : string,
  (0 < x)%N →
  ∃ c rest, pretty_N_go x s = String c rest ∧ decimal_char c = true ∧
    (String.length s ≤ String.length rest)%nat ∧
    (rest = EmptyString → (x < 10)%N ∧ c = pretty_N_char x).
Proof.
  induction (N.lt_wf_0 x) as [x _ IH]; intros s Hx.
  rewrite pretty_N_go_step by done.
  destruct (decide (x `div` 10 = 0)%N) as [Hz | Hnz].
  - rewrite Hz, pretty_N_go_0.
    apply N.div_small_iff in Hz; [| done].
    exists (pretty_N_char (x `mod` 10)), s.
    split; [done |]. split; [apply pretty_N_char_decimal |]. split; [done |].
    intros _. split; [done |]. by rewrite N.mod_small.
  - destruct (IH (x `div` 10)%N) with (s := String (pretty_N_char (x `mod` 10)) s)
      as (c & rest & Hgo & Hc & Hlen & _).
    + by apply N.div_lt.
    + by apply N.neq_0_lt_0.
    + exists c, rest. split; [done |]. split; [done |].
      cbn [String.length] in Hlen. split; [lia |].
      intros ->. cbn [String.length] in Hlen. lia.
Qed.

(** A decimal numeral starts with a digit or the minus sign, and is one
    byte long for the numbers from 0 to 9 only. *)
Lemma FormatInt_head (n : Z) :
  ∃ c rest, FormatInt n = String c rest ∧ decimal_char c = true ∧
    (rest = EmptyString → 0 ≤ n < 10 ∧ c = pretty_N_char (Z.to_N n)).
Proof.
  unfold FormatInt, pretty, pretty_Z. destruct n as [|p|p].
  - exists "0"%char, EmptyString. by repeat split.
  - unfold pretty, pretty_positive, pretty, pretty_N.
    destruct (decide (N.pos p = 0%N)) as [Hz | _]; [done |].
    destruct (pretty_N_go_head (N.pos p) EmptyString) as (c & rest & Hgo & Hc & _ & Hone);
      [done |].
    exists c, rest. split; [done |]. split; [done |].
    intros Hrest. destruct (Hone Hrest) as [Hlt ->]. split; [lia | done].
  - unfold pretty, pretty_positive, pretty, pretty_N.
    destruct (decide (N.pos p = 0%N)) as [Hz | _]; [done |].
    destruct (pretty_N_go_head (N.pos p) EmptyString) as (c & rest & Hgo & _);
      [done |].
    exists "-"%char, (pretty_N_go (N.pos p) EmptyString).
    split; [done |]. split; [done |]. rewrite Hgo. discriminate.
Qed.

(** The first byte of a form of two, three or four bytes is no byte of a
    decimal numeral. *)
Lemma lead_not_decimal (t k : Z) :
  t = t2 ∨ t = t3 ∨ t = t4 → 0 ≤ k < 32 →
  decimal_char (byte (Z.lor t k)) = false.
Proof.
  intros Ht Hk.
  assert (Hall : forallb (λ k, negb (decimal_char (byte (Z.lor t k)))) (seqZ 0 32) = true).
  { destruct Ht as [-> | [-> | ->]]; by vm_compute. }
  rewrite forallb_forall in Hall.
  apply negb_true_iff, Hall, list_elem_of_In, elem_of_seqZ. lia.
Qed.

Lemma encoderune_head (r : Z) :
  - 2 ^ 31 ≤ r < 2 ^ 31 →
  ∃ c rest, encoderune r = String c rest ∧
    ((rest = EmptyString ∧ 0 ≤ r ≤ rune1Max ∧ c = byte r) ∨ decimal_char c = false).
Proof.
  intros Hr. unfold encoderune.
  destruct (Z.lt_ge_cases r 0) as [Hneg | Hpos].
  - rewrite uint32_neg by lia.
    exists (byte (Z.lor t3 (Z.shiftr RuneError 12))). eexists.
    split; [rune_cases | by right].
  - rewrite uint32_nonneg by lia.
    destruct (Z.leb_spec r rune1Max) as [H1 | H1].
    { exists (byte r), EmptyString. split; [done |]. left. repeat split; lia. }
    destruct (Z.leb_spec r rune2Max) as [H2 | H2].
    { exists (byte (Z.lor t2 (Z.shiftr r 6))). eexists. split; [reflexivity |].
      right. apply lead_not_decimal; [by left |].
      rewrite Z.shiftr_div_pow2 by lia. unfold rune2Max in H2.
      split; [apply Z.div_pos | apply Z.div_lt_upper_bound]; lia. }
    destruct ((MaxRune <? r) || (surrogateMin <=? r) && (r <=? surrogateMax)) eqn:Hbad.
    { exists (byte (Z.lor t3 (Z.shiftr RuneError 12))). eexists.
      split; [reflexivity | by right]. }
    apply orb_false_iff in Hbad as [Hmax%Z.ltb_ge _].
    destruct (Z.leb_spec r rune3Max) as [H3 | H3].
    { exists (byte (Z.lor t3 (Z.shiftr r 12))). eexists. split; [reflexivity |].
      right. apply lead_not_decimal; [by right; left |].
      rewrite Z.shiftr_div_pow2 by lia. unfold rune3Max in H3.
      split; [apply Z.div_pos | apply Z.div_lt_upper_bound]; lia. }
    exists (byte (Z.lor t4 (Z.shiftr r 18))). eexists. split; [reflexivity |].
    right. apply lead_not_decimal; [by right; right |].
    rewrite Z.shiftr_div_pow2 by lia. unfold MaxRune in Hmax.
    split; [apply Z.div_pos | apply Z.div_lt_upper_bound]; lia.
Qed.

(** The result is never the decimal numeral of the normalized time. *)
Lemma stringified_not_decimal (b : Block) :
  GetNormalizedTimeStringified b ≠ FormatInt (NormalizedTime b).
Proof.
  unfold GetNormalizedTimeStringified. intros Heq.
  destruct (encoderune_head _ (rune_range (NormalizedTime b)))
    as (c & rest & Henc & Hcase).
  destruct (FormatInt_head (NormalizedTime b)) as (c' & rest' & Hfmt & Hdec & Hone).
  rewrite Henc, Hfmt in Heq. injection Heq as -> ->.
  destruct Hcase as [(-> & Hr & Hc) | Hc]; [| congruence].
  destruct (Hone eq_refl) as [Hn Hc'].
  rewrite rune_small in Hc by lia.
  assert (Hten : forallb (λ n, negb (bool_decide (byte n = pretty_N_char (Z.to_N n))))
                   (seqZ 0 10) = true) by by vm_compute.
  rewrite forallb_forall in Hten.
  specialize (Hten (NormalizedTime b)).
  rewrite negb_true_iff, bool_decide_eq_false in Hten.
  apply Hten; [| congruence].
  apply list_elem_of_In, elem_of_seqZ. lia.
Qed.

(** C9.  What [GetNormalizedTimeStringified] computes: the UTF-8 form of
    one code point, the one numbered by the rune of [NormalizedTime] when
    that is a Unicode scalar value, and U+FFFD for every other rune.  The
    method is documented to return the normalized time of the block as a
    string; its result is never the decimal numeral of that time,
    [strconv.FormatInt] of it in base ten. *)
Theorem GetNormalizedTimeStringified_rune (b : Block) :
  utf8_of_code_point
    (if valid_rune (rune (NormalizedTime b))
     then rune (NormalizedTime b) else RuneError) =
  Some (GetNormalizedTimeStringified b) ∧
  GetNormalizedTimeStringified b ≠ FormatInt (NormalizedTime b).
Proof.
  split; [| apply stringified_not_decimal].
  unfold GetNormalizedTimeStringified.
  destruct (valid_rune (rune (NormalizedTime b))) eqn:Hv.
  - by apply encoderune_valid.
  - by rewrite (encoderune_invalid _ (rune_range _) Hv).
Qed.

(* ===================================================================== *)
(** ** Blocks from the clock                                             *)
(* ===================================================================== *)

(** What the package reads off a [time.Time]. *)
Record Time : Type := {
  Year : Z;
  Month : Z;          (* time.Month, an int *)
  Day : Z;
  Hour : Z;
  Minute : Z;
  Second : Z;
  UnixNano : Z;       (* int64 *)
}.

Definition longMonthNames : list string :=
  ["January"; "February"; "March"; "April"; "May"; "June"; "July";
   "August"; "September"; "October"; "November"; "December"].

(** [uint64(m)]. *)
Definition uint64 (x : Z) : Z := x mod 2 ^ 64.

(** [func (m Month) String() string] of package time. *)
Definition Month_String (m : Z) : string :=
  if (1 <=? m) && (m <=? 12)
  then default EmptyString (longMonthNames !! Z.to_nat (m - 1))
  else "%!Month(" +:+ FormatInt (uint64 m) +:+ ")".

(** The values [s] is called on: an [int], or a [time.Month], which
    prints by its [String] method. *)
Inductive printed : Type :=
| AnInt (n : Z)
| AMonth (m : Z).

(** [func s(st interface{}) string], that is [fmt.Sprintf] with [%v]. *)
Definition s (st : printed) : string :=
  match st with
  | AnInt n => FormatInt n
  | AMonth m => Month_String m
  end.

(** [func GetTimeStampCalc() string], on the time [time.Now] gave. *)
Definition GetTimeStampCalc (t : Time) : string :=
  s (AnInt (Year t)) +:+ "|" +:+ s (AMonth (Month t)) +:+ "|" +:+
  s (AnInt (Day t)) +:+ "|" +:+ s (AnInt (Hour t)) +:+ "|" +:+
  s (AnInt (Minute t)) +:+ "|" +:+ s (AnInt (Second t)).

(** [func GetNormalizedTimeCalc() int64], on the time [time.Now] gave. *)
Definition GetNormalizedTimeCalc (t : Time) : Z := UnixNano t.

(** [func GetNewBlock(blockType, value string) *Block].  The clock is read
    twice, first for the timestamp and then for the normalized time. *)
Definition GetNewBlock (stamp_now norm_now : Time) (blockType value : string) : Block :=
  {| Timestamp := GetTimeStampCalc stamp_now;
     NormalizedTime := GetNormalizedTimeCalc norm_now;
     Datapoint := value;
     Type_ := blockType |}.

(* ------------------------------------------------------------------- *)
(** *** Splitting and joining                                           *)
(* ------------------------------------------------------------------- *)

Lemma contains_byte_app (a b : string) (c : ascii) :
  contains_byte (a +:+ b) c = contains_byte a c || contains_byte b c.
Proof.
  induction a as [|x a IH]; [done |].
  rewrite append_cons. cbn [contains_byte]. by rewrite IH, orb_assoc.
Qed.

Lemma Split_app (a b : string) (sep : ascii) :
  Split (a +:+ String sep b) sep = Split a sep ++ Split b sep.
Proof.
  induction a as [|x a IH].
  - rewrite append_empty_l. cbn [Split]. by rewrite Ascii.eqb_refl.
  - rewrite append_cons. cbn [Split]. rewrite IH.
    destruct (Ascii.eqb x sep); [done |].
    pose proof (Split_not_nil a sep) as Hne.
    by destruct (Split a sep).
Qed.

Lemma Join_cons_head (x : ascii) (p : string) (ps : list string) (sep : string) :
  Join (String x p :: ps) sep = String x (Join (p :: ps) sep).
Proof. by destruct ps. Qed.

Lemma Join_Split (str : string) (sep : ascii) :
  Join (Split str sep) (String sep EmptyString) = str.
Proof.
  induction str as [|x str IH]; [done |].
  cbn [Split]. destruct (Ascii.eqb_spec x sep) as [-> | Hne].
  - pose proof (Split_not_nil str sep) as Hnil.
    destruct (Split str sep) as [|p ps]; [done |].
    change (Join (EmptyString :: p :: ps) (String sep EmptyString))
      with (String sep (Join (p :: ps) (String sep EmptyString))).
    by rewrite IH.
  - pose proof (Split_not_nil str sep) as Hnil.
    destruct (Split str sep) as [|p ps]; [done |].
    by rewrite Join_cons_head, IH.
Qed.

(** X1.  Splitting a string at a byte and joining the pieces with that
    byte gives the string back; so the directory [checkAndCreatePath]
    looks for, for a path made of a directory, a separator and a name
    without separator, is that directory, whatever separators the
    directory itself holds. *)
Theorem parent_dir_of_file (dir name : string) :
  contains_byte name slash = false →
  Join (Split (dir +:+ "/" +:+ name) slash) "/" = dir +:+ "/" +:+ name ∧
  parent_dir (dir +:+ "/" +:+ name) = dir.
Proof.
  intros Hname. split; [apply (Join_Split _ slash) |].
  unfold parent_dir.
  change (dir +:+ "/" +:+ name) with (dir +:+ String slash name).
  rewrite Split_app, (Split_without_sep _ _ Hname).
  rewrite length_app. cbn [length].
  replace (length (Split dir slash) + 1 - 1)%nat with (length (Split dir slash)) by lia.
  rewrite take_app_length. apply (Join_Split dir slash).
Qed.

Lemma parent_dir_of_root (name : string) :
  contains_byte name slash = false → parent_dir ("/" +:+ name) = EmptyString.
Proof.
  intros Hname. unfold parent_dir.
  change ("/" +:+ name) with (EmptyString +:+ String slash name).
  by rewrite Split_app, (Split_without_sep _ _ Hname).
Qed.

(* ------------------------------------------------------------------- *)
(** *** Chain names                                                     *)
(* ------------------------------------------------------------------- *)

Lemma ReplaceAll_removes (str : string) (old : ascii) (new : string) :
  contains_byte new old = false →
  contains_byte (ReplaceAll str old new) old = false.
Proof.
  intros Hnew. induction str as [|x str IH]; [done |].
  cbn [ReplaceAll]. destruct (Ascii.eqb x old) eqn:Hx.
  - by rewrite contains_byte_app, Hnew, IH.
  - cbn [contains_byte]. by rewrite Hx, IH.
Qed.

Lemma ReplaceAll_keeps_out (str : string) (old c : ascii) (new : string) :
  contains_byte str c = false →
  contains_byte new c = false →
  contains_byte (ReplaceAll str old new) c = false.
Proof.
  intros Hstr Hnew. induction str as [|x str IH]; [done |].
  cbn [contains_byte] in Hstr. apply orb_false_iff in Hstr as [Hx Hstr].
  cbn [ReplaceAll]. destruct (Ascii.eqb x old).
  - by rewrite contains_byte_app, Hnew, (IH Hstr).
  - cbn [contains_byte]. by rewrite Hx, (IH Hstr).
Qed.

Lemma ReplaceAll_without (str : string) (old : ascii) (new : string) :
  contains_byte str old = false → ReplaceAll str old new = str.
Proof.
  induction str as [|x str IH]; [done |].
  cbn [contains_byte ReplaceAll]. intros [Hx Hstr]%orb_false_iff.
  by rewrite Hx, (IH Hstr).
Qed.

(** X2.  The name [NewChain] gives a chain holds no dot and no slash, and
    is the path itself when the path holds neither. *)
Theorem filterChainPath_clean (path : string) :
  contains_byte (Name (NewChain path)) dot = false ∧
  contains_byte (Name (NewChain path)) slash = false ∧
  (contains_byte path dot = false → contains_byte path slash = false →
   Name (NewChain path) = path).
Proof.
  cbn [NewChain Name]. unfold filterChainPath.
  assert (Hdot : contains_byte (ReplaceAll path dot "___") dot = false)
    by by apply ReplaceAll_removes.
  split; [by apply ReplaceAll_keeps_out |].
  split; [by apply ReplaceAll_removes |].
  intros Hd Hs. rewrite (ReplaceAll_without path dot _ Hd).
  by apply ReplaceAll_without.
Qed.

(* ------------------------------------------------------------------- *)
(** *** The timestamp of a new block                                    *)
(* ------------------------------------------------------------------- *)

Lemma pretty_N_char_not (x : N) (c : ascii) :
  decimal_char c = false → Ascii.eqb (pretty_N_char x) c = false.
Proof.
  intros Hc. destruct (Ascii.eqb_spec (pretty_N_char x) c) as [<- | Hne]; [| done].
  by rewrite pretty_N_char_decimal in Hc.
Qed.

Lemma pretty_N_go_bytes (x : N) (c : ascii) : ∀ acc : string,
  decimal_char c = false →
  contains_byte acc c = false →
  contains_byte (pretty_N_go x acc) c = false.
Proof.
  induction (N.lt_wf_0 x) as [x _ IH]; intros acc Hc Hacc.
  destruct (decide (x = 0)%N) as [-> | Hx].
  - by rewrite pretty_N_go_0.
  - apply N.neq_0_lt_0 in Hx. rewrite pretty_N_go_step by done.
    apply IH; [by apply N.div_lt | done |].
    cbn [contains_byte]. by rewrite pretty_N_char_not, Hacc.
Qed.

(** A decimal numeral holds digits and the minus sign only. *)
Lemma FormatInt_bytes (n : Z) (c : ascii) :
  decimal_char c = false → contains_byte (FormatInt n) c = false.
Proof.
  intros Hc. unfold FormatInt, pretty, pretty_Z. destruct n as [|p|p].
  - cbn [contains_byte]. destruct (Ascii.eqb_spec "0"%char c) as [<- | Hne]; done.
  - unfold pretty, pretty_positive, pretty, pretty_N.
    destruct (decide (N.pos p = 0%N)); [done |]. by apply pretty_N_go_bytes.
  - unfold pretty, pretty_positive, pretty, pretty_N.
    destruct (decide (N.pos p = 0%N)); [done |].
    change ("-" +:+ pretty_N_go (N.pos p) EmptyString)
      with (String "-"%char (pretty_N_go (N.pos p) EmptyString)).
    cbn [contains_byte]. rewrite pretty_N_go_bytes by done.
    destruct (Ascii.eqb_spec "-"%char c) as [<- | Hne]; done.
Qed.

Definition bar : ascii := "|"%char.

Lemma Month_String_no_bar (m : Z) : contains_byte (Month_String m) bar = false.
Proof.
  unfold Month_String. destruct ((1 <=? m) && (m <=? 12)) eqn:Hm.
  - assert (Hall : forallb (λ name, negb (contains_byte name bar)) longMonthNames = true)
      by by vm_compute.
    rewrite forallb_forall in Hall.
    destruct (longMonthNames !! Z.to_nat (m - 1)) as [name|] eqn:Hname; [| done].
    cbn [default]. apply negb_true_iff, Hall, list_elem_of_In.
    by apply list_elem_of_lookup_2 in Hname.
  - rewrite !contains_byte_app, FormatInt_bytes by done. done.
Qed.

Lemma s_no_bar (st : printed) : contains_byte (s st) bar = false.
Proof.
  destruct st as [n|m]; [by apply FormatInt_bytes | apply Month_String_no_bar].
Qed.

Lemma Split_field (a b : string) (sep : ascii) :
  contains_byte a sep = false →
  Split (a +:+ String sep EmptyString +:+ b) sep = a :: Split b sep.
Proof.
  intros Ha.
  change (a +:+ String sep EmptyString +:+ b) with (a +:+ String sep b).
  by rewrite Split_app, (Split_without_sep _ _ Ha).
Qed.

(** X3.  The timestamp of a new block splits at the block data separator
    into exactly six fields: the year, the name of the month, the day, the
    hour, the minute and the second, in decimal.  The type and the data
    point of the block are the arguments, and the normalized time is the
    nanosecond reading of the second look at the clock. *)
Theorem GetNewBlock_timestamp_fields (stamp_now norm_now : Time) (blockType value : string) :
  Split (GetTimeStamp (GetNewBlock stamp_now norm_now blockType value)) bar =
    [FormatInt (Year stamp_now); Month_String (Month stamp_now);
     FormatInt (Day stamp_now); FormatInt (Hour stamp_now);
     FormatInt (Minute stamp_now); FormatInt (Second stamp_now)] ∧
  GetType (GetNewBlock stamp_now norm_now blockType value) = blockType ∧
  GetDatapointEnc (GetNewBlock stamp_now norm_now blockType value) = value ∧
  GetNormalizedTime (GetNewBlock stamp_now norm_now blockType value) = UnixNano norm_now.
Proof.
  split; [| done].
  unfold GetTimeStamp, GetNewBlock. cbn [Timestamp]. unfold GetTimeStampCalc.
  change "|" with (String bar EmptyString).
  rewrite !Split_field by apply s_no_bar.
  by rewrite (Split_without_sep _ _ (s_no_bar _)).
Qed.

(** A month within the year prints by its name. *)
Lemma Month_String_name (m : Z) :
  1 ≤ m ≤ 12 → Month_String m ∈ longMonthNames.
Proof.
  intros Hm. unfold Month_String.
  replace ((1 <=? m) && (m <=? 12)) with true by (symmetry; apply andb_true_iff; lia).
  destruct (longMonthNames !! Z.to_nat (m - 1)) as [name|] eqn:Hname.
  - by apply list_elem_of_lookup_2 in Hname.
  - apply lookup_ge_None in Hname. cbn [longMonthNames length] in Hname. lia.
Qed.

(* ===================================================================== *)
(** ** More on chains and their files                                    *)
(* ===================================================================== *)

Section Further.
Context {W : Type} `{OS W} `{Codec}.
Implicit Types (w : @World W) (c : Chain).

(** X4.  [parseToJSON] never panics on a slice of blocks.  For the nil
    slice it gives [null]; otherwise a bracketed list, separated by
    commas, of the texts [Encode] gives for the blocks, in their order. *)
Theorem parseToJSON_text {S : Type} (l : list Block) (st : S) :
  parseToJSON None st = (Ok "null", st) ∧
  parseToJSON (Some l) st = (Ok ("[" +:+ Join (Block_json <$> l) "," +:+ "]"), st) ∧
  Forall (λ b, Encode b st = (Ok (Block_json b), st)) l.
Proof.
  rewrite !parseToJSON_run. split; [done |]. split; [done |].
  apply Forall_forall. intros b _. apply Encode_run.
Qed.

Lemma append_nil (a : Blocks) : append a [] = a.
Proof. destruct a as [l|]; [| done]. cbn. by rewrite app_nil_r. Qed.

(** A body of [commit] that panics leaves the fields of the chain as they
    were; and when the file cannot be read or decoded it leaves the world
    as it was too. *)
Lemma commit_panic_keeps_blocks c w v c' w' :
  commit (c, w) = (Panic v, (c', w')) →
  c' = c ∧ ((∀ old, stored (Path c) w ≠ Val old) → w' = w).
Proof.
  intros Hc. unfold stored.
  destruct (ReadFile (Path c) (disk w)) as [raw|e] eqn:Hread.
  - destruct (json_Unmarshal raw) as [old|e] eqn:Hdec.
    + rewrite (commit_run _ _ _ _ Hread Hdec) in Hc.
      destruct (saveToHDD _ _ w) as [[[err|]|v1] w1]; try done.
      * injection Hc as _ <- <-. split; [done |]. intros Hno. by destruct (Hno old).
      * injection Hc as _ <- <-. split; [done |]. intros Hno. by destruct (Hno old).
    + rewrite (commit_undecodable _ _ _ _ Hread Hdec) in Hc.
      by injection Hc as _ <- <-.
  - rewrite (commit_unreadable _ _ _ Hread) in Hc. by injection Hc as _ <- <-.
Qed.


(** A [commit] that returns leaves the mutex free, as [Append] does on
    every way out. *)
Lemma commit_returns_frees_mux (g : Guarded) w (g' : Guarded) w' :
  commit_mux (g, w) = (Ran (Ok tt), (g', w')) → held g' = false.
Proof.
  unfold commit_mux. cbn [fst snd]. destruct (held g); [done |].
  destruct (commit (guarded g, w)) as [r [c1 w1]].
  intros Hrun. by injection Hrun as -> <- <-.
Qed.

Lemma Append_frees_mux b (g : Guarded) w r (g' : Guarded) w' :
  Append_mux b (g, w) = (Ran r, (g', w')) → held g' = false.
Proof.
  unfold Append_mux. cbn [fst snd]. destruct (held g); [done |].
  destruct (Append b (guarded g, w)) as [r1 [c1 w1]].
  intros Hrun. by injection Hrun as _ <- <-.
Qed.

(** X6.  Two rounds of appending and committing add up: the file decodes
    to what it decoded to at first, followed by the blocks of the first
    round and then those of the second.  With no block in the second
    round, a second [commit] persists nothing twice. *)
Theorem two_commits_accumulate c w bs1 bs2 old c2 w2 :
  stored (Path c) w = Val old →
  (Appends bs1;; commit;; Appends bs2;; commit) (c, w) = (Ok tt, (c2, w2)) →
  reads_back (append old (elems (Chain_ c) ++ bs1)) →
  reads_back (append (append old (elems (Chain_ c) ++ bs1)) bs2) →
  ∃ new, stored (Path c) w2 = Val new ∧
    elems new = elems old ++ elems (Chain_ c) ++ bs1 ++ bs2.
Proof.
  intros Hstored Hrun Hback1 Hback2.
  unfold bind in Hrun. rewrite Appends_run in Hrun.
  destruct (commit (appended_all bs1 c, w)) as [[[]|v] [c1 w1]] eqn:Hc1; [| done].
  assert (Hfirst : (Appends bs1;; commit) (c, w) = (Ok tt, (c1, w1))).
  { unfold bind. by rewrite Appends_run. }
  destruct (Appends_commit_saved _ _ _ _ _ _ Hstored Hfirst) as [Hread1 ->].
  assert (Hpath : Path (committed (appended_all bs1 c)) = Path c)
    by apply appended_all_Path.
  assert (Hstored1 : stored (Path (committed (appended_all bs1 c))) w1 =
                     Val (append old (elems (Chain_ c) ++ bs1))).
  { rewrite Hpath. unfold stored. by rewrite Hread1. }
  assert (Hsecond : (Appends bs2;; commit) (committed (appended_all bs1 c), w1) =
                    (Ok tt, (c2, w2))) by exact Hrun.
  destruct (Appends_commit_saved _ _ _ _ _ _ Hstored1 Hsecond) as [Hread2 _].
  rewrite Hpath in Hread2. cbn [committed set_containsNewBlocks set_Chain_ Chain_ elems default app] in Hread2.
  exists (append (append old (elems (Chain_ c) ++ bs1)) bs2).
  unfold stored. rewrite Hread2, Hback2. split; [done |].
  by rewrite !elems_append, <- !app_assoc.
Qed.

(** X7.  [Init] is idempotent: after an [Init] that returned, another
    [Init] returns and changes neither the chain nor the world. *)
Theorem Init_idempotent c w c1 w1 :
  Init (c, w) = (Ok tt, (c1, w1)) →
  Init (c1, w1) = (Ok tt, (c1, w1)).
Proof.
  intros Hinit.
  destruct (ReadFile (Path c) (disk w)) as [res|e] eqn:Hread.
  - rewrite (Init_readable _ _ _ Hread) in Hinit. injection Hinit as <- <-.
    by rewrite (Init_readable (emptied c) w res Hread).
  - rewrite (Init_unreadable _ _ _ Hread) in Hinit.
    destruct (saveToHDD (Path c) "[]" (announced c w)) as [[[err|]|v] w0] eqn:Hsave;
      try done.
    injection Hinit as <- <-.
    apply saveToHDD_ReadFile in Hsave.
    by rewrite (Init_readable (emptied c) w0 "[]" Hsave).
Qed.


(** X9.  On an unreadable path whose directory is not there, [Init]
    makes the directory with [MkdirAll] and then writes the text of the
    empty array into the file. *)
Theorem Init_creates_directory c w e err d1 d2 :
  ReadFile (Path c) (disk w) = Err e →
  Stat (parent_dir (Path c)) (disk w) = Some err →
  MkdirAll (parent_dir (Path c)) (disk w) = (d1, None) →
  WriteFile (Path c) "[]" d1 = (d2, None) →
  Init (c, w) = (Ok tt, (emptied c, set_disk d2 (announced c w))) ∧
  ReadFile (Path c) d2 = Val "[]".
Proof.
  intros Hread Hstat Hmk Hwrite.
  rewrite (Init_unreadable _ _ _ Hread), saveToHDD_run, checkAndCreatePath_run.
  cbn [announced disk]. rewrite Hstat, Hmk. cbn [set_disk disk]. rewrite Hwrite.
  split; [done |]. by apply WriteFile_ReadFile in Hwrite.
Qed.

Lemma checkAndCreatePath_no_dir path w :
  parent_dir path = EmptyString →
  ∃ e, MkdirAll EmptyString (disk w) = (disk w, Some e) ∧
       checkAndCreatePath path w = (Panic (PanicError e), w).
Proof.
  intros Hdir. destruct (MkdirAll_empty (disk w)) as [e He].
  exists e. split; [done |].
  rewrite checkAndCreatePath_run, Hdir, He.
  pose proof (Stat_empty (disk w)) as Hs.
  destruct (Stat EmptyString (disk w)) as [err|]; [| done].
  by destruct w.
Qed.

(** X10.  No file can be saved right under the root: for a path made of
    one leading slash and a name, the directory [checkAndCreatePath] looks
    for is the empty string, and [saveToHDD] panics before it writes. *)
Theorem saveToHDD_panics_under_root (name data : string) w :
  contains_byte name slash = false →
  ∃ e, parent_dir ("/" +:+ name) = EmptyString ∧
       MkdirAll EmptyString (disk w) = (disk w, Some e) ∧
       saveToHDD ("/" +:+ name) data w = (Panic (PanicError e), w).
Proof.
  intros Hname.
  assert (Hdir : parent_dir ("/" +:+ name) = EmptyString).
  { by apply parent_dir_of_root. }
  destruct (checkAndCreatePath_no_dir _ w Hdir) as (e & Hmk & Hcheck).
  exists e. split; [done |]. split; [done |].
  by rewrite saveToHDD_run, Hcheck.
Qed.

Lemma appended_all_LengthElements (bs : list Block) : ∀ c,
  bs ≠ [] →
  LengthElements (appended_all bs c) = len (Chain_ (appended_all bs c)).
Proof.
  induction bs as [|b bs IH]; intros c Hne; [done |].
  change (appended_all (b :: bs) c) with (appended_all bs (appended b c)).
  destruct bs as [|b' bs]; [done |]. by apply IH.
Qed.

(** X11.  [commit] does not touch [LengthElements]: after blocks were
    appended and committed, the in-memory sequence is empty while
    [LengthElements] still counts the blocks that were flushed. *)
Theorem commit_keeps_LengthElements c w bs c1 w1 :
  bs ≠ [] →
  (Appends bs;; commit) (c, w) = (Ok tt, (c1, w1)) →
  len (Chain_ c1) = 0 ∧
  LengthElements c1 = Z.of_nat (length (elems (Chain_ c)) + length bs).
Proof.
  intros Hne Hrun. unfold bind in Hrun. rewrite Appends_run in Hrun.
  destruct (commit_Ok _ _ _ _ Hrun) as (_ & _ & _ & _ & _ & ->).
  split; [done |].
  cbn [committed set_containsNewBlocks set_Chain_ LengthElements].
  rewrite (appended_all_LengthElements bs c Hne). unfold len.
  by rewrite appended_all_elems, length_app.
Qed.

Lemma run_ops_LengthElements ops : ∀ c w c' w',
  (containsNewBlocks c = true → LengthElements c = len (Chain_ c)) →
  run_ops ops (c, w) = (Ok tt, (c', w')) →
  containsNewBlocks c' = true → LengthElements c' = len (Chain_ c').
Proof.
  induction ops as [|o ops IH]; intros c w c' w' Hinv Hrun.
  - by injection Hrun as <- <-.
  - cbn [run_ops] in Hrun. unfold bind in Hrun.
    destruct o as [b|]; cbn [run_op] in Hrun.
    + rewrite Append_run in Hrun.
      by apply (IH (appended b c) w c' w').
    + destruct (commit (c, w)) as [[[]|v] [c2 w2]] eqn:Hc; [| done].
      destruct (commit_resets _ _ _ _ Hc) as (_ & _ & Hflag & _).
      apply (IH c2 w2 c' w'); [by rewrite Hflag | done].
Qed.

(** X12.  In every state a chain reaches from [NewChain] by [Append] and
    [commit] calls that returned, [LengthElements] is the length of the
    in-memory sequence whenever the flag of new blocks is set. *)
Theorem LengthElements_while_dirty path w ops c' w' :
  run_ops ops (NewChain path, w) = (Ok tt, (c', w')) →
  containsNewBlocks c' = true →
  LengthElements c' = Z.of_nat (length (elems (Chain_ c'))).
Proof.
  intros Hrun. by apply (run_ops_LengthElements ops (NewChain path) w c' w').
Qed.

(* ------------------------------------------------------------------- *)
(** *** The read-only view                                              *)
(* ------------------------------------------------------------------- *)

Lemma Refresh_cases (ro : ChainReadOnly) w :
  Refresh (ro, w) =
  match ReadFile (ro_Path ro) (disk w) with
  | Err _ =>
      (Panic NilDereference,
       (ro, {| disk := disk w;
               logged := logged w ++
                 [(ERROR, "error reading the chain: " +:+ ro_Path ro +:+ LF)] |}))
  | Val raw =>
      match json_Unmarshal raw with
      | Val loaded => (Ok tt, (set_ro_Chain loaded ro, w))
      | Err e => (Panic (PanicError e), (ro, w))
      end
  end.
Proof.
  unfold Refresh, bind, this. simpl. rewrite io_run, parse_run.
  destruct (ReadFile (ro_Path ro) (disk w)) as [raw|e]; [| done].
  simpl. unfold loadFromStorage. by destruct (json_Unmarshal raw).
Qed.

(** X13.  A [Refresh] that returns gives the view exactly the blocks the
    file decodes to, whatever the view held before, and leaves the world
    as it was; a second [Refresh] then changes nothing. *)
Theorem Refresh_loads_file (ro ro' : ChainReadOnly) w w' :
  Refresh (ro, w) = (Ok tt, (ro', w')) →
  w' = w ∧ ro_Path ro' = ro_Path ro ∧
  stored (ro_Path ro) w = Val (BlockStream ro') ∧
  Refresh (ro', w') = (Ok tt, (ro', w')).
Proof.
  intros Hrun. rewrite Refresh_cases in Hrun. unfold stored.
  destruct (ReadFile (ro_Path ro) (disk w)) as [raw|e] eqn:Hread; [| done].
  destruct (json_Unmarshal raw) as [loaded|e] eqn:Hdec; [| done].
  injection Hrun as <- <-. repeat split; try done.
  rewrite Refresh_cases. cbn [set_ro_Chain ro_Path]. by rewrite Hread, Hdec.
Qed.

(** X14.  [Refresh] never writes: the disk is as it was, whatever the
    outcome.  When it does not return it leaves the view as it was, and
    on a file that does not decode it panics with the error of the
    decoder, without a line in the log. *)
Theorem Refresh_never_writes (ro ro' : ChainReadOnly) w w' r :
  Refresh (ro, w) = (r, (ro', w')) →
  disk w' = disk w ∧ ro_Path ro' = ro_Path ro ∧
  (r ≠ Ok tt → ro' = ro) ∧
  (∀ raw e, ReadFile (ro_Path ro) (disk w) = Val raw → json_Unmarshal raw = Err e →
     r = Panic (PanicError e) ∧ w' = w).
Proof.
  intros Hrun. rewrite Refresh_cases in Hrun.
  destruct (ReadFile (ro_Path ro) (disk w)) as [raw|e] eqn:Hread.
  - destruct (json_Unmarshal raw) as [loaded|e] eqn:Hdec; injection Hrun as <- <- <-.
    + split; [done |]. split; [done |]. split; [done |].
      intros raw' e' [= <-] He. congruence.
    + split; [done |]. split; [done |]. split; [done |].
      intros raw' e' [= <-] He. rewrite Hdec in He. by injection He as <-.
  - injection Hrun as <- <- <-.
    split; [done |]. split; [done |]. split; done.
Qed.

End Further.

(* ===================================================================== *)
(** ** More on the chain set                                             *)
(* ===================================================================== *)

(** X15.  [Register] under a name changes what [Get] gives for no other
    name and leaves the flush configuration as it was; a chain set fresh
    from [NewChainSet] finds no name. *)
Theorem Register_leaves_other_names (cs : ChainSet) (name other : string) (chain : ptr)
    (ft fd : Z) :
  name ≠ other →
  Get (Register cs name chain) other = Get cs other ∧
  flushType (Register cs name chain) = flushType cs ∧
  FlushDuration (Register cs name chain) = FlushDuration cs ∧
  Get (NewChainSet ft fd) other = (None, false) ∧
  Get (Register (NewChainSet ft fd) name chain) other = (None, false).
Proof.
  intros Hne. split; [by apply Get_Register_other |].
  split; [done |]. split; [done |]. split; [done |].
  by rewrite Get_Register_other.
Qed.

Section Registry.
Context {W : Type} `{OS W} `{Codec}.
Implicit Types (c : Chain) (s : @Sys W).

Lemma call_run {A : Type} (l : loc) (m : Method Chain A) c s :
  heap s !! l = Some c →
  call (Some l) m s =
  ((m (c, world s)).1,
   {| heap := <[l := (m (c, world s)).2.1]> (heap s);
      world := (m (c, world s)).2.2 |}).
Proof.
  intros Hl. unfold call. rewrite Hl.
  by destruct (m (c, world s)) as [r [c' w']].
Qed.

(** X16.  [ChainSet.Append] on a name registered with a chain appends the
    block to that chain and returns its address; the chains at all other
    addresses and the world stay as they were. *)
Theorem ChainSet_Append_registered (cs : ChainSet) (name : string) (b : Block)
    (l : loc) c s :
  Cmap cs !! name = Some (Some l) →
  heap s !! l = Some c →
  ∃ s', ChainSet_Append cs name b s = (Ok (Some l), s') ∧
    Get cs name = (Some l, true) ∧
    world s' = world s ∧
    heap s' !! l = Some (appended b c) ∧
    elems (Chain_ (appended b c)) = elems (Chain_ c) ++ [b] ∧
    (∀ l' : loc, l' ≠ l → heap s' !! l' = heap s !! l').
Proof.
  intros Hname Hl.
  exists {| heap := <[l := appended b c]> (heap s); world := world s |}.
  assert (Hidx : index cs name = Some l) by (unfold index; by rewrite Hname).
  unfold ChainSet_Append, bind, Get. rewrite Hidx, Hname.
  rewrite (call_run l (Append b) c s Hl), Append_run. cbn [fst snd heap world].
  split; [done |]. split; [done |]. split; [done |].
  split; [by rewrite lookup_insert_eq |].
  split; [cbn [appended Chain_]; by rewrite elems_append |].
  intros l' Hne. by rewrite lookup_insert_ne.
Qed.

(** X17.  A name that is not registered, or is registered with nil, makes
    [ChainSet.Append] panic on the nil pointer, and so does a turn of the
    scheduler when it comes to that name; the process state is as it was
    at that point. *)
Theorem nil_chain_panics (cs : ChainSet) (name : string) (b : Block)
    (rest : list string) s :
  Cmap cs !! name = None ∨ Cmap cs !! name = Some None →
  ChainSet_Append cs name b s = (Panic NilDereference, s) ∧
  tick cs (name :: rest) s = (Panic NilDereference, s).
Proof.
  intros Hname.
  assert (Hidx : index cs name = None).
  { unfold index. by destruct Hname as [-> | ->]. }
  unfold ChainSet_Append, tick, bind. cbn [fmap list_fmap range].
  unfold bind. by rewrite Hidx.
Qed.

(** The chains a turn without new blocks leaves behind: the counter moved,
    all else as before. *)
Definition idle_since c c' : Prop :=
  Chain_ c' = Chain_ c ∧ Path c' = Path c ∧ Name c' = Name c ∧
  LengthElements c' = LengthElements c ∧
  containsNewBlocks c' = containsNewBlocks c.

Lemma range_idle_frame (chains : list ptr) : ∀ s,
  (∀ p, p ∈ chains → ∃ l : loc, p = Some l ∧ is_Some (heap s !! l)) →
  (∀ (l : loc) c, heap s !! l = Some c → containsNewBlocks c = false) →
  ∃ h, range chains s = (Ok tt, {| heap := h; world := world s |}) ∧
       (∀ (l : loc) c, heap s !! l = Some c → ∃ c', h !! l = Some c' ∧ idle_since c c') ∧
       (∀ l : loc, heap s !! l = None → h !! l = None).
Proof.
  induction chains as [|p chains IH]; intros s Halloc Hclean.
  - exists (heap s). split; [by destruct s |]. split; [| done].
    intros l c Hl. by exists c.
  - destruct (Halloc p) as (l & -> & [c Hl]); [by left |].
    cbn [range]. unfold bind.
    rewrite (call_flush_idle l c s Hl (Hclean l c Hl)).
    set (s1 := {| heap := <[l := idled c]> (heap s); world := world s |}).
    destruct (IH s1) as (h & Hrun & Hsome & Hnone).
    + intros p' Hp'. destruct (Halloc p') as (l' & -> & Hl'); [by right |].
      exists l'. split; [done |]. cbn [s1 heap].
      destruct (decide (l = l')) as [<- | Hne].
      * rewrite lookup_insert_eq. eauto.
      * by rewrite lookup_insert_ne.
    + intros l' c'. cbn [s1 heap]. destruct (decide (l = l')) as [<- | Hne].
      * rewrite lookup_insert_eq. intros [= <-]. by apply (Hclean l c).
      * rewrite lookup_insert_ne by done. apply Hclean.
    + exists h. split; [done |]. split.
      * intros l' c' Hl'. destruct (decide (l = l')) as [<- | Hne].
        -- rewrite Hl in Hl'. injection Hl' as <-.
           destruct (Hsome l (idled c)) as (c2 & Hc2 & Hidle);
             [by apply lookup_insert_eq |].
           exists c2. split; [done |]. by destruct Hidle as (? & ? & ? & ? & ?).
        -- apply Hsome. cbn [s1 heap]. by rewrite lookup_insert_ne.
      * intros l' Hl'. apply Hnone. cbn [s1 heap].
        rewrite lookup_insert_ne; [done |]. intros <-. by rewrite Hl in Hl'.
Qed.


(** Every name of the chain set is registered with a chain that is
    there. *)
Definition all_registered (cs : ChainSet) s : Prop :=
  ∀ (name : string) (p : ptr), Cmap cs !! name = Some p →
    ∃ l : loc, p = Some l ∧ is_Some (heap s !! l).

(** An iteration order holds the names of the chain set, each once. *)
Lemma iteration_order_names (cs : ChainSet) (order : list string) (name : string) :
  iteration_order cs order → name ∈ order ↔ is_Some (Cmap cs !! name).
Proof.
  unfold iteration_order. intros ->. rewrite list_elem_of_fmap. split.
  - intros ([k p] & -> & Hin). apply elem_of_map_to_list in Hin. by exists p.
  - intros [p Hp]. exists (name, p). split; [done |]. by apply elem_of_map_to_list.
Qed.

Lemma iteration_order_NoDup (cs : ChainSet) (order : list string) :
  iteration_order cs order → NoDup order.
Proof. unfold iteration_order. intros ->. apply NoDup_fst_map_to_list. Qed.

Lemma iteration_order_allocated (cs : ChainSet) (order : list string) s :
  iteration_order cs order → all_registered cs s →
  ∀ p, p ∈ index cs <$> order → ∃ l : loc, p = Some l ∧ is_Some (heap s !! l).
Proof.
  intros Horder Hreg p (name & -> & Hname)%list_elem_of_fmap.
  apply (iteration_order_names _ _ _ Horder) in Hname as [p Hp].
  unfold index. rewrite Hp. cbn. by apply (Hreg name).
Qed.

Lemma idle_since_refl c : idle_since c c.
Proof. by unfold idle_since. Qed.

Lemma idle_since_trans c1 c2 c3 :
  idle_since c1 c2 → idle_since c2 c3 → idle_since c1 c3.
Proof.
  intros (? & ? & ? & ? & ?) (? & ? & ? & ? & ?).
  unfold idle_since. repeat split; congruence.
Qed.

Lemma range_app (a b : list ptr) s : range (a ++ b) s = (range a;; range b) s.
Proof.
  revert s. induction a as [|p a IH]; intros s; [done |].
  cbn [app range]. unfold bind.
  destruct (call p flush s) as [[[]|v] s1]; [| done].
  specialize (IH s1). unfold bind in IH. exact IH.
Qed.

(** A visit of chains none of which has new blocks: the chains that are
    not visited stay as they are. *)
Lemma range_idle_visited (chains : list ptr) : ∀ s,
  (∀ p, p ∈ chains →
     ∃ (l : loc) c, p = Some l ∧ heap s !! l = Some c ∧ containsNewBlocks c = false) →
  ∃ h, range chains s = (Ok tt, {| heap := h; world := world s |}) ∧
       (∀ (l : loc) c, heap s !! l = Some c → ∃ c', h !! l = Some c' ∧ idle_since c c') ∧
       (∀ l : loc, heap s !! l = None → h !! l = None) ∧
       (∀ l : loc, Some l ∉ chains → h !! l = heap s !! l).
Proof.
  induction chains as [|p chains IH]; intros s Hvisit.
  - exists (heap s). split; [by destruct s |].
    split; [| done]. intros l c Hl. exists c. split; [done | apply idle_since_refl].
  - destruct (Hvisit p) as (l & c & -> & Hl & Hflag); [by left |].
    cbn [range]. unfold bind.
    rewrite (call_flush_idle l c s Hl Hflag).
    set (s1 := {| heap := <[l := idled c]> (heap s); world := world s |}).
    destruct (IH s1) as (h & Hrun & Hsome & Hnone & Hskip).
    + intros p' Hp'. destruct (Hvisit p') as (l' & c' & -> & Hl' & Hflag'); [by right |].
      cbn [s1 heap]. destruct (decide (l = l')) as [<- | Hne].
      * exists l, (idled c). by rewrite lookup_insert_eq.
      * exists l', c'. by rewrite lookup_insert_ne.
    + exists h. split; [done |]. split; [| split].
      * intros l' c' Hl'. destruct (decide (l = l')) as [<- | Hne].
        -- rewrite Hl in Hl'. injection Hl' as <-.
           destruct (Hsome l (idled c)) as (c2 & Hc2 & Hidle);
             [by apply lookup_insert_eq |].
           exists c2. split; [done |]. by destruct Hidle as (? & ? & ? & ? & ?).
        -- apply Hsome. cbn [s1 heap]. by rewrite lookup_insert_ne.
      * intros l' Hl'. apply Hnone. cbn [s1 heap].
        rewrite lookup_insert_ne; [done |]. intros <-. by rewrite Hl in Hl'.
      * intros l' [Hne Hnot]%not_elem_of_cons. rewrite (Hskip l' Hnot).
        cbn [s1 heap]. rewrite lookup_insert_ne; [done |]. by intros <-.
Qed.

(** A visit that comes to one chain with new blocks, at [l], for the
    first time behind [pre]: it commits that chain and counts the others
    as idle. *)
Lemma range_one_dirty (pre post : list ptr) (l : loc) c c' w' s :
  (∀ p, p ∈ pre ++ post → ∃ l0 : loc, p = Some l0 ∧ is_Some (heap s !! l0)) →
  Some l ∉ pre →
  heap s !! l = Some c →
  containsNewBlocks c = true →
  (∀ (l0 : loc) c0, l0 ≠ l → heap s !! l0 = Some c0 → containsNewBlocks c0 = false) →
  commit (c, world s) = (Ok tt, (c', w')) →
  ∃ h c1, range (pre ++ Some l :: post) s = (Ok tt, {| heap := h; world := w' |}) ∧
    h !! l = Some c1 ∧ idle_since c' c1 ∧
    (Some l ∉ post → c1 = c') ∧
    (∀ (l0 : loc) c0, l0 ≠ l → heap s !! l0 = Some c0 →
       ∃ c2, h !! l0 = Some c2 ∧ idle_since c0 c2) ∧
    (∀ l0 : loc, heap s !! l0 = None → h !! l0 = None).
Proof.
  intros Halloc Hpre Hl Hflag Hclean Hcommit.
  rewrite range_app. unfold bind.
  destruct (range_idle_visited pre s) as (ha & Hra & Hsa & Hna & Hka).
  { intros p Hp. destruct (Halloc p) as (l0 & -> & [c0 Hl0]);
      [apply elem_of_app; by left |].
    exists l0, c0. split; [done |]. split; [done |].
    apply (Hclean l0 c0); [| done]. by intros ->. }
  rewrite Hra. cbn [range]. unfold bind.
  assert (Hla : ha !! l = Some c) by by rewrite (Hka l Hpre).
  rewrite (call_run l flush c {| heap := ha; world := world s |} Hla).
  cbn [heap world]. rewrite (flush_dirty _ _ Hflag), Hcommit. cbn [fst snd].
  destruct (commit_resets _ _ _ _ Hcommit) as (_ & _ & Hflag' & _).
  set (s2 := {| heap := <[l := c']> ha; world := w' |}).
  destruct (range_idle_visited post s2) as (h & Hr & Hs & Hn & Hk).
  { intros p Hp. destruct (Halloc p) as (l0 & -> & [c0 Hl0]);
      [apply elem_of_app; by right |].
    cbn [s2 heap]. destruct (decide (l0 = l)) as [-> | Hne].
    - exists l, c'. by rewrite lookup_insert_eq.
    - destruct (Hsa l0 c0 Hl0) as (c2 & Hc2 & Hidle).
      exists l0, c2. rewrite lookup_insert_ne by done.
      split; [done |]. split; [done |].
      destruct Hidle as (_ & _ & _ & _ & ->). by apply (Hclean l0 c0). }
  destruct (Hs l c') as (c1 & Hc1 & Hidle1); [by apply lookup_insert_eq |].
  exists h, c1. split; [exact Hr |]. split; [done |]. split; [done |].
  split; [| split].
  - intros Hnot. rewrite (Hk l Hnot) in Hc1. cbn [s2 heap] in Hc1.
    rewrite lookup_insert_eq in Hc1. by injection Hc1.
  - intros l0 c0 Hne Hl0. destruct (Hsa l0 c0 Hl0) as (ca & Hca & Hia).
    destruct (Hs l0 ca) as (cb & Hcb & Hib).
    { cbn [s2 heap]. by rewrite lookup_insert_ne. }
    exists cb. split; [done |]. by apply (idle_since_trans _ ca).
  - intros l0 Hl0. apply Hn. cbn [s2 heap].
    rewrite lookup_insert_ne; [by apply Hna |]. intros <-. by rewrite Hl in Hl0.
Qed.

(** A visit of chains without new blocks that comes to [l] once counts
    the chain at [l] as idle once. *)
Lemma range_idle_once (pre post : list ptr) (l : loc) c s :
  (∀ p, p ∈ pre ++ Some l :: post →
     ∃ (l0 : loc) c0, p = Some l0 ∧ heap s !! l0 = Some c0 ∧ containsNewBlocks c0 = false) →
  Some l ∉ pre → Some l ∉ post →
  heap s !! l = Some c →
  ∃ h, range (pre ++ Some l :: post) s = (Ok tt, {| heap := h; world := world s |}) ∧
       h !! l = Some (idled c).
Proof.
  intros Hvisit Hpre Hpost Hl.
  assert (Hflag : containsNewBlocks c = false).
  { destruct (Hvisit (Some l)) as (l0 & c0 & [= <-] & Hl0 & Hflag0).
    - apply elem_of_app. right. by left.
    - rewrite Hl in Hl0. by injection Hl0 as <-. }
  rewrite range_app. unfold bind.
  destruct (range_idle_visited pre s) as (ha & Hra & Hsa & _ & Hka).
  { intros p Hp. apply Hvisit, elem_of_app. by left. }
  rewrite Hra. cbn [range]. unfold bind.
  assert (Hla : ha !! l = Some c) by by rewrite (Hka l Hpre).
  rewrite (call_flush_idle l c {| heap := ha; world := world s |} Hla Hflag).
  cbn [heap world].
  set (s2 := {| heap := <[l := idled c]> ha; world := world s |}).
  destruct (range_idle_visited post s2) as (h & Hr & _ & _ & Hk).
  { intros p Hp. destruct (Hvisit p) as (l0 & c0 & -> & Hl0 & Hflag0).
    { apply elem_of_app. right. by right. }
    cbn [s2 heap]. destruct (decide (l0 = l)) as [-> | Hne].
    - exists l, (idled c). by rewrite lookup_insert_eq.
    - destruct (Hsa l0 c0 Hl0) as (c2 & Hc2 & Hidle).
      exists l0, c2. rewrite lookup_insert_ne by done.
      split; [done |]. split; [done |].
      by destruct Hidle as (_ & _ & _ & _ & ->). }
  exists h. split; [exact Hr |].
  rewrite (Hk l Hpost). cbn [s2 heap]. by rewrite lookup_insert_eq.
Qed.

(** The names of an iteration order around a name that alone is
    registered with the chain at [l]. *)
Lemma iteration_order_split (cs : ChainSet) (order : list string) (name : string)
    (l : loc) :
  iteration_order cs order →
  Cmap cs !! name = Some (Some l) →
  (∀ name', Cmap cs !! name' = Some (Some l) → name' = name) →
  ∃ n1 n2, (index cs <$> order) = (index cs <$> n1) ++ Some l :: (index cs <$> n2) ∧
    (Some l ∉ index cs <$> n1) ∧ (Some l ∉ index cs <$> n2).
Proof.
  intros Horder Hname Honly.
  assert (Hin : name ∈ order) by by apply (iteration_order_names _ _ _ Horder).
  destruct (list_elem_of_split _ _ Hin) as (n1 & n2 & ->).
  pose proof (iteration_order_NoDup _ _ Horder) as Hnodup.
  apply NoDup_app in Hnodup as (_ & Hn1 & [Hn2 _]%NoDup_cons).
  assert (Hidx : index cs name = Some l) by (unfold index; by rewrite Hname).
  assert (Hother : ∀ name', index cs name' = Some l → name' = name).
  { intros name' Hidx'. apply Honly. unfold index in Hidx'.
    destruct (Cmap cs !! name') as [p|]; [| done]. cbn in Hidx'. by rewrite Hidx'. }
  exists n1, n2. rewrite fmap_app, fmap_cons, Hidx. split; [done |]. split.
  - intros (name' & Heq & Hin')%list_elem_of_fmap.
    rewrite (Hother name') in Hin' by done.
    apply (Hn1 name Hin'). by left.
  - intros (name' & Heq & Hin')%list_elem_of_fmap.
    rewrite (Hother name') in Hin' by done. done.
Qed.

(** A turn in any iteration order over a chain set whose one chain with
    new blocks is at [l]. *)
Lemma tick_one_dirty (cs : ChainSet) (order : list string) (name : string)
    (l : loc) c c' w' s :
  iteration_order cs order →
  all_registered cs s →
  Cmap cs !! name = Some (Some l) →
  heap s !! l = Some c →
  containsNewBlocks c = true →
  (∀ (l0 : loc) c0, l0 ≠ l → heap s !! l0 = Some c0 → containsNewBlocks c0 = false) →
  commit (c, world s) = (Ok tt, (c', w')) →
  ∃ h c1, tick cs order s = (Ok tt, {| heap := h; world := w' |}) ∧
    h !! l = Some c1 ∧ idle_since c' c1 ∧
    ((∀ name', Cmap cs !! name' = Some (Some l) → name' = name) → c1 = c') ∧
    (∀ (l0 : loc) c0, l0 ≠ l → heap s !! l0 = Some c0 →
       ∃ c2, h !! l0 = Some c2 ∧ idle_since c0 c2) ∧
    (∀ l0 : loc, heap s !! l0 = None → h !! l0 = None).
Proof.
  intros Horder Hreg Hname Hl Hflag Hclean Hcommit.
  pose proof (iteration_order_allocated _ _ _ Horder Hreg) as Halloc.
  assert (Hidx : index cs name = Some l) by (unfold index; by rewrite Hname).
  assert (Hin : Some l ∈ index cs <$> order).
  { rewrite <- Hidx. apply list_elem_of_fmap_2.
    by apply (iteration_order_names _ _ _ Horder). }
  destruct (list_elem_of_split_l _ _ Hin) as (pre & post & Hsplit & Hpre).
  unfold tick.
  destruct (range_one_dirty pre post l c c' w' s) as (h & c1 & Hrun & Hc1 & Hidle & _ & Hrest);
    try done.
  { intros p Hp. apply Halloc. rewrite Hsplit.
    apply elem_of_app in Hp as [Hp | Hp]; apply elem_of_app; [by left |].
    right. by right. }
  exists h, c1. rewrite Hsplit. split; [exact Hrun |]. split; [done |].
  split; [done |]. split; [| done].
  intros Honly.
  destruct (iteration_order_split _ _ _ _ Horder Hname Honly)
    as (n1 & n2 & Hsplit' & Hn1 & Hn2).
  destruct (range_one_dirty (index cs <$> n1) (index cs <$> n2) l c c' w' s)
    as (h' & c1' & Hrun' & Hc1' & _ & Hexact & _); try done.
  { intros p Hp. apply Halloc. rewrite Hsplit'.
    apply elem_of_app in Hp as [Hp | Hp]; apply elem_of_app; [by left |].
    right. by right. }
  rewrite <- Hsplit', Hsplit, Hrun in Hrun'. injection Hrun' as <-.
  rewrite Hc1 in Hc1'. injection Hc1' as ->. by apply Hexact.
Qed.

(** X19.  A turn of the scheduler, in whatever order it visits the names
    of the chain set, over chains of which one has new blocks: when the
    [commit] of that chain returns, the turn returns with the world that
    commit left and the chain empty, its flag cleared; the next turn,
    with nothing appended in between, leaves the world alone.  When the
    chain is registered under one name only, the second turn counts it as
    idle once. *)
Theorem turn_commits_then_idles (cs : ChainSet) (order1 order2 : list string)
    (name : string) (l : loc) c c' w' s :
  iteration_order cs order1 →
  iteration_order cs order2 →
  all_registered cs s →
  Cmap cs !! name = Some (Some l) →
  heap s !! l = Some c →
  containsNewBlocks c = true →
  (∀ (l0 : loc) c0, l0 ≠ l → heap s !! l0 = Some c0 → containsNewBlocks c0 = false) →
  commit (c, world s) = (Ok tt, (c', w')) →
  ∃ h1 h2 c1 c2,
    tick cs order1 s = (Ok tt, {| heap := h1; world := w' |}) ∧
    (tick cs order1;; tick cs order2) s = (Ok tt, {| heap := h2; world := w' |}) ∧
    h1 !! l = Some c1 ∧ idle_since c' c1 ∧
    h2 !! l = Some c2 ∧ idle_since c' c2 ∧
    elems (Chain_ c2) = [] ∧ containsNewBlocks c2 = false ∧
    (∀ (l0 : loc) c0, l0 ≠ l → heap s !! l0 = Some c0 →
       ∃ c3, h2 !! l0 = Some c3 ∧ idle_since c0 c3) ∧
    ((∀ name', Cmap cs !! name' = Some (Some l) → name' = name) →
       c1 = c' ∧ c2 = idled c' ∧
       inActiveIterations c2 = (inActiveIterations c + 1) mod 2 ^ 32).
Proof.
  intros Horder1 Horder2 Hreg Hname Hl Hflag Hclean Hcommit.
  destruct (tick_one_dirty cs order1 name l c c' w' s)
    as (h1 & c1 & Hrun1 & Hc1 & Hidle1 & Hexact1 & Hrest1 & Hnone1); try done.
  destruct (commit_resets _ _ _ _ Hcommit) as (_ & Hempty & Hflag' & _).
  set (s1 := {| heap := h1; world := w' |}).
  assert (Hvisit : ∀ p, p ∈ index cs <$> order2 →
            ∃ (l0 : loc) c0, p = Some l0 ∧ heap s1 !! l0 = Some c0 ∧
              containsNewBlocks c0 = false).
  { intros p Hp.
    destruct (iteration_order_allocated _ _ _ Horder2 Hreg p Hp) as (l0 & -> & [c0 Hl0]).
    cbn [s1 heap]. destruct (decide (l0 = l)) as [-> | Hne].
    - exists l, c1. split; [done |]. split; [done |].
      by destruct Hidle1 as (_ & _ & _ & _ & ->).
    - destruct (Hrest1 l0 c0 Hne Hl0) as (c3 & Hc3 & Hidle3).
      exists l0, c3. split; [done |]. split; [done |].
      destruct Hidle3 as (_ & _ & _ & _ & ->). by apply (Hclean l0 c0). }
  destruct (range_idle_visited (index cs <$> order2) s1 Hvisit)
    as (h2 & Hrun2 & Hsome2 & _ & _).
  destruct (Hsome2 l c1 Hc1) as (c2 & Hc2 & Hidle2).
  pose proof (idle_since_trans _ _ _ Hidle1 Hidle2) as Hidle.
  exists h1, h2, c1, c2. split; [exact Hrun1 |].
  split; [unfold bind; rewrite Hrun1; exact Hrun2 |].
  split; [done |]. split; [done |]. split; [done |]. split; [done |].
  split; [destruct Hidle as (-> & _); exact Hempty |].
  split; [destruct Hidle as (_ & _ & _ & _ & ->); exact Hflag' |].
  split.
  - intros l0 c0 Hne Hl0. destruct (Hrest1 l0 c0 Hne Hl0) as (c3 & Hc3 & Hidle3).
    destruct (Hsome2 l0 c3 Hc3) as (c4 & Hc4 & Hidle4).
    exists c4. split; [done |]. by apply (idle_since_trans _ c3).
  - intros Honly. pose proof (Hexact1 Honly) as ->.
    destruct (iteration_order_split _ _ _ _ Horder2 Hname Honly)
      as (n1 & n2 & Hsplit & Hn1 & Hn2).
    destruct (range_idle_once (index cs <$> n1) (index cs <$> n2) l c' s1)
      as (h2' & Hrun2' & Hc2'); try done.
    { rewrite <- Hsplit. exact Hvisit. }
    unfold tick in Hrun2. rewrite <- Hsplit, Hrun2 in Hrun2'. injection Hrun2' as <-.
    rewrite Hc2 in Hc2'. injection Hc2' as ->.
    split; [done |]. split; [done |].
    by destruct (commit_Ok _ _ _ _ Hcommit) as (_ & _ & _ & _ & _ & ->).
Qed.

(** X20.  From producer to file: a block appended through the chain set
    is persisted by the next turn of the scheduler, in whatever order the
    turn visits the names.  With no other chain holding new blocks, and
    the [commit] of the chain with the new block returning, a
    [ChainSet.Append] under a registered name followed by a turn returns;
    the file of the chain then holds what that commit wrote and, the
    decoder reading back what the encoder wrote, decodes to what it
    decoded to before, then the blocks the chain held in memory, then the
    new block; the chain is left empty with its flag cleared. *)
Theorem appended_block_reaches_file (cs : ChainSet) (order : list string)
    (name : string) (b : Block) (l : loc) c old c' w' s :
  iteration_order cs order →
  all_registered cs s →
  Cmap cs !! name = Some (Some l) →
  heap s !! l = Some c →
  (∀ (l0 : loc) c0, l0 ≠ l → heap s !! l0 = Some c0 → containsNewBlocks c0 = false) →
  stored (Path c) (world s) = Val old →
  commit (appended b c, world s) = (Ok tt, (c', w')) →
  reads_back (append old (elems (Chain_ c) ++ [b])) →
  ∃ s' new c2,
    (ChainSet_Append cs name b;; tick cs order) s = (Ok tt, s') ∧
    world s' = w' ∧
    stored (Path c) (world s') = Val new ∧
    elems new = elems old ++ elems (Chain_ c) ++ [b] ∧
    heap s' !! l = Some c2 ∧ elems (Chain_ c2) = [] ∧ containsNewBlocks c2 = false.
Proof.
  intros Horder Hreg Hname Hl Hclean Hstored Hcommit Hback.
  assert (Hidx : index cs name = Some l) by (unfold index; by rewrite Hname).
  set (s1 := {| heap := <[l := appended b c]> (heap s); world := world s |}).
  assert (Happend : ChainSet_Append cs name b s = (Ok (Some l), s1)).
  { unfold ChainSet_Append, bind. rewrite Hidx.
    by rewrite (call_run l (Append b) c s Hl), Append_run. }
  destruct (tick_one_dirty cs order name l (appended b c) c' w' s1)
    as (h & c1 & Hrun & Hc1 & Hidle & _); try done.
  - intros name' p Hp. destruct (Hreg name' p Hp) as (l0 & -> & [c0 Hl0]).
    exists l0. split; [done |]. cbn [s1 heap].
    destruct (decide (l = l0)) as [<- | Hne].
    + rewrite lookup_insert_eq. eauto.
    + rewrite lookup_insert_ne by done. eauto.
  - by apply lookup_insert_eq.
  - intros l0 c0 Hne. cbn [s1 heap]. rewrite lookup_insert_ne by done.
    by apply Hclean.
  - assert (Hac : (Appends [b];; commit) (c, world s) = (Ok tt, (c', w'))).
    { unfold bind. by rewrite Appends_run. }
    destruct (Appends_commit_saved _ _ _ _ _ _ Hstored Hac) as [Hread _].
    destruct (commit_resets _ _ _ _ Hcommit) as (_ & Hempty & Hflag' & _).
    exists {| heap := h; world := w' |}, (append old (elems (Chain_ c) ++ [b])), c1.
    split; [unfold bind; by rewrite Happend |].
    cbn [world heap]. split; [done |].
    unfold stored. rewrite Hread, Hback, elems_append.
    split; [done |]. split; [done |]. split; [done |].
    destruct Hidle as (-> & _ & _ & _ & ->). done.
Qed.

(** The chain set and the process fit a list of turns: every name a turn
    visits is registered with a chain that is there. *)
Definition turns_registered (cs : ChainSet) (turns : list (list string)) s : Prop :=
  ∀ order name, order ∈ turns → name ∈ order →
    ∃ l : loc, Cmap cs !! name = Some (Some l) ∧ is_Some (heap s !! l).

Lemma ticks_idle (cs : ChainSet) (turns : list (list string)) : ∀ s,
  turns_registered cs turns s →
  (∀ (l : loc) c, heap s !! l = Some c → containsNewBlocks c = false) →
  ∃ h, fold_right (λ order k, tick cs order;; k) (ret tt) turns s =
         (Ok tt, {| heap := h; world := world s |}) ∧
       (∀ (l : loc) c, heap s !! l = Some c → ∃ c', h !! l = Some c' ∧ idle_since c c').
Proof.
  induction turns as [|order turns IH]; intros s Hreg Hclean.
  - exists (heap s). split; [by destruct s |]. intros l c Hl. by exists c.
  - cbn [fold_right]. unfold bind.
    destruct (range_idle_frame (index cs <$> order) s) as (h1 & Hrun1 & Hsome1 & Hnone1).
    { intros p (name & -> & Hname)%list_elem_of_fmap.
      destruct (Hreg order name) as (l & Hl & Hs); [by left | done |].
      exists l. split; [| done]. unfold index. by rewrite Hl. }
    { done. }
    unfold tick at 1. rewrite Hrun1.
    set (s1 := {| heap := h1; world := world s |}).
    destruct (IH s1) as (h & Hrun & Hsome).
    + intros order' name Horder Hname.
      destruct (Hreg order' name) as (l & Hl & [c Hc]); [by right | done |].
      exists l. split; [done |].
      destruct (Hsome1 l c Hc) as (c1 & Hc1 & _). cbn [s1 heap]. by rewrite Hc1.
    + intros l c1 Hc1. cbn [s1 heap] in Hc1.
      destruct (heap s !! l) as [c|] eqn:Hc.
      * destruct (Hsome1 l c Hc) as (c1' & Hc1' & Hidle).
        rewrite Hc1 in Hc1'. injection Hc1' as <-.
        destruct Hidle as (_ & _ & _ & _ & ->). by apply (Hclean l c).
      * by rewrite (Hnone1 l Hc) in Hc1.
    + exists h. split; [done |].
      intros l c Hc. destruct (Hsome1 l c Hc) as (c1 & Hc1 & Hidle1).
      destruct (Hsome l c1 Hc1) as (c2 & Hc2 & Hidle2).
      exists c2. split; [done |].
      destruct Hidle1 as (? & ? & ? & ? & ?), Hidle2 as (? & ? & ? & ? & ?).
      unfold idle_since. repeat split; congruence.
Qed.


End Registry.

(* ===================================================================== *)
(** ** The program run on the reference instances                        *)
(* ===================================================================== *)

Import Reference.

Definition path_a : string := "storage/route_a.json".
Definition chain_a : Chain := NewChain path_a.
Definition two_blocks : list Block := [block1; block2].

(** Two blocks appended to a fresh chain on [path_a] and committed. *)
Definition after_commit : outcome unit * (Chain * World) :=
  (Appends two_blocks;; commit) (chain_a, world0).

Lemma after_commit_returns :
  (Appends two_blocks;; commit) (chain_a, world0) =
  (Ok tt, (after_commit.2.1, after_commit.2.2)).
Proof. by vm_compute. Qed.

Lemma stored_world0 : stored (Path chain_a) world0 = Val (Some []).
Proof. by vm_compute. Qed.

Lemma codec_two_blocks : reads_back (Some two_blocks).
Proof. by vm_compute. Qed.



(** The same run with the string handling of [encoding/json].  One block
    whose [Datapoint] is the single byte 0xFF, which is no UTF-8, is
    appended to a fresh chain over an empty file and committed. *)
Definition after_commit_ff : outcome unit * (Chain * World) :=
  (Appends [GoJSON.block_ff];; @commit MemDisk MemFS GoJSON.codec) (chain_a, world0).



(** C2 as stated fails on a fresh chain: [NewChain] sets the flag while
    the in-memory sequence is still empty. *)
Lemma containsNewBlocks_fresh_counterexample :
  containsNewBlocks (NewChain path_a) = true ∧
  elems (Chain_ (NewChain path_a)) = [] ∧
  ¬ (containsNewBlocks (NewChain path_a) = true ↔
     elems (Chain_ (NewChain path_a)) ≠ []).
Proof.
  split; [reflexivity |]. split; [reflexivity |].
  intros [Hflag _]. by apply Hflag.
Qed.

(** An append, a commit and another append, from a fresh chain. *)
Definition three_ops : list op := [OpAppend block1; OpCommit; OpAppend block2].
Definition after_ops : outcome unit * (Chain * World) :=
  run_ops three_ops (chain_a, world0).

Lemma containsNewBlocks_reachable_witness :
  after_ops.1 = Ok tt ∧
  elems (Chain_ after_ops.2.1) = [block2] ∧
  (containsNewBlocks after_ops.2.1 = true ↔
   elems (Chain_ after_ops.2.1) ≠ [] ∨ OpCommit ∉ three_ops).
Proof.
  split; [by vm_compute |].
  apply (containsNewBlocks_reachable path_a world0 three_ops
           after_ops.2.1 after_ops.2.2).
  by vm_compute.
Defined.

(** A read-only view of a path with no file behind it. *)
Definition path_missing : string := "storage/missing.json".

Lemma Refresh_panics_when_unreadable_witness :
  ReadFile path_missing (disk world0) = Err ENOENT ∧
  Refresh (ReadOnly path_missing, world0) =
  (Panic NilDereference,
   (ReadOnly path_missing,
    {| disk := disk0;
       logged := [(ERROR, "error reading the chain: " +:+ path_missing +:+ LF)] |})).
Proof.
  split; [reflexivity |].
  exact (Refresh_panics_when_unreadable (ReadOnly path_missing) world0 ENOENT eq_refl).
Defined.

(** The chain of [path_a] with one block in memory, and a process that
    holds the chain [commit] left behind at address 1. *)
Definition dirty_a : Chain := appended block1 chain_a.
Definition after_dirty_commit : outcome unit * (Chain * World) :=
  commit (dirty_a, world0).
Definition sys_idle : Sys :=
  {| heap := {[ 1%positive := after_dirty_commit.2.1 ]};
     world := after_dirty_commit.2.2 |}.


(** A chain on a path whose directory is there and whose file is not. *)
Definition path_b : string := "storage/route_b.json".
Definition chain_b : Chain := NewChain path_b.
Definition after_Init : outcome unit * (Chain * World) := Init (chain_b, world0).

Lemma Init_leaves_memory_empty_witness :
  ReadFile path_b (disk world0) = Err ENOENT ∧
  after_Init.1 = Ok tt ∧
  Chain_ after_Init.2.1 = Some [] ∧
  LengthElements after_Init.2.1 = 0 ∧
  ReadFile path_b (disk after_Init.2.2) = Val "[]".
Proof.
  destruct (Init_leaves_memory_empty chain_b world0)
    as (r & c' & w' & Hrun & Hmem & _ & Hlen & _ & Hunreadable).
  destruct (Hunreadable ENOENT eq_refl) as (_ & _ & Hwritten).
  assert (Hr : after_Init = (r, (c', w'))) by exact Hrun.
  assert (Hok : after_Init.1 = Ok tt) by by vm_compute.
  rewrite Hr in Hok |- *. cbn [fst snd] in Hok |- *.
  split; [reflexivity |]. split; [exact Hok |]. split; [exact Hmem |].
  split; [exact Hlen |]. exact (Hwritten Hok).
Defined.

(** A chain on a path without a separator, with no file behind it. *)
Definition path_bare : string := "route_a.json".
Definition chain_bare : Chain := NewChain path_bare.

Lemma Init_panics_on_bare_path_witness :
  contains_byte (Path chain_bare) slash = false ∧
  ReadFile (Path chain_bare) (disk world0) = Err ENOENT ∧
  ∃ e, parent_dir (Path chain_bare) = EmptyString ∧
       MkdirAll EmptyString (disk world0) = (disk world0, Some e) ∧
       Init (chain_bare, world0) =
         (Panic (PanicError e), (emptied chain_bare, announced chain_bare world0)) ∧
       ReadFile (Path chain_bare) (disk (announced chain_bare world0)) = Err ENOENT.
Proof.
  split; [reflexivity |]. split; [reflexivity |].
  exact (Init_panics_on_bare_path chain_bare world0 ENOENT eq_refl eq_refl).
Defined.

(** The method on the nanoseconds of a day in 2020: the low 32 bits of
    0x16345785D8A00000 are 0xD8A00000, a negative rune, which numbers no
    code point; the result is the form of U+FFFD, where the documented
    result is the numeral 1600000000000000000. *)
Lemma GetNormalizedTimeStringified_failing_input :
  NormalizedTime block1 = 1600000000000000000 ∧
  rune (NormalizedTime block1) = -660602880 ∧
  GetNormalizedTimeStringified block1 = bytes [0xEF; 0xBF; 0xBD] ∧
  FormatInt (NormalizedTime block1) = "1600000000000000000" ∧
  GetNormalizedTimeStringified block1 ≠ FormatInt (NormalizedTime block1) ∧
  utf8_of_code_point (rune (NormalizedTime block1)) ≠
    Some (GetNormalizedTimeStringified block1).
Proof. repeat split; try by vm_compute. Qed.

(* ===================================================================== *)
(** ** Further runs on the reference instances                           *)
(* ===================================================================== *)

Lemma parent_dir_of_file_witness :
  contains_byte "route.json" slash = false ∧
  Join (Split ("storage/sub" +:+ "/" +:+ "route.json") slash) "/" =
    "storage/sub" +:+ "/" +:+ "route.json" ∧
  parent_dir ("storage/sub" +:+ "/" +:+ "route.json") = "storage/sub".
Proof.
  split; [reflexivity |].
  exact (parent_dir_of_file "storage/sub" "route.json" eq_refl).
Defined.

(** A chain with a block in memory and no file behind it. *)
Definition dirty_missing : Chain := appended block1 (NewChain path_missing).


(** A block appended and committed, and then another. *)
Definition after_two_commits : outcome unit * (Chain * World) :=
  (Appends [block1];; commit;; Appends [block2];; commit) (chain_a, world0).

Lemma two_commits_accumulate_witness :
  after_two_commits.1 = Ok tt ∧
  ∃ new, stored (Path chain_a) after_two_commits.2.2 = Val new ∧
    elems new = [] ++ [] ++ [block1] ++ [block2].
Proof.
  split; [by vm_compute |].
  apply (two_commits_accumulate chain_a world0 [block1] [block2] (Some [])
           after_two_commits.2.1 after_two_commits.2.2); by vm_compute.
Defined.

Lemma Init_idempotent_witness :
  after_Init.1 = Ok tt ∧
  Init (after_Init.2.1, after_Init.2.2) = (Ok tt, (after_Init.2.1, after_Init.2.2)).
Proof.
  split; [by vm_compute |].
  apply (Init_idempotent chain_b world0). by vm_compute.
Defined.

(** Two blocks appended, then [Init], then a commit. *)
Definition after_Init_commit : outcome unit * (Chain * World) :=
  (Appends two_blocks;; Init;; commit) (chain_a, world0).


(** A chain on a path whose directory is not there yet. *)
Definition path_fresh : string := "fresh/route.json".
Definition chain_fresh : Chain := NewChain path_fresh.
Definition disk_with_dir : MemDisk := (mem_MkdirAll "fresh" disk0).1.
Definition disk_with_file : MemDisk := (mem_WriteFile path_fresh "[]" disk_with_dir).1.

Lemma Init_creates_directory_witness :
  Stat (parent_dir path_fresh) disk0 = Some ENOENT ∧
  Init (chain_fresh, world0) =
    (Ok tt, (emptied chain_fresh, set_disk disk_with_file (announced chain_fresh world0))) ∧
  ReadFile (Path chain_fresh) disk_with_file = Val "[]".
Proof.
  split; [by vm_compute |].
  apply (Init_creates_directory chain_fresh world0 ENOENT ENOENT
           disk_with_dir disk_with_file); by vm_compute.
Defined.

Lemma saveToHDD_panics_under_root_witness :
  contains_byte "route.json" slash = false ∧
  ∃ e, parent_dir ("/" +:+ "route.json") = EmptyString ∧
       MkdirAll EmptyString (disk world0) = (disk world0, Some e) ∧
       saveToHDD ("/" +:+ "route.json") "[]" world0 = (Panic (PanicError e), world0).
Proof.
  split; [reflexivity |].
  exact (saveToHDD_panics_under_root "route.json" "[]" world0 eq_refl).
Defined.

Lemma two_blocks_not_nil : two_blocks ≠ [].
Proof. discriminate. Qed.

Lemma commit_keeps_LengthElements_witness :
  after_commit.1 = Ok tt ∧
  len (Chain_ after_commit.2.1) = 0 ∧
  LengthElements after_commit.2.1 = Z.of_nat (0 + 2).
Proof.
  split; [by vm_compute |].
  exact (commit_keeps_LengthElements chain_a world0 two_blocks
           after_commit.2.1 after_commit.2.2 two_blocks_not_nil after_commit_returns).
Defined.

Lemma LengthElements_while_dirty_witness :
  after_ops.1 = Ok tt ∧
  containsNewBlocks after_ops.2.1 = true ∧
  LengthElements after_ops.2.1 = Z.of_nat (length (elems (Chain_ after_ops.2.1))).
Proof.
  split; [by vm_compute |]. split; [by vm_compute |].
  apply (LengthElements_while_dirty path_a world0 three_ops
           after_ops.2.1 after_ops.2.2); by vm_compute.
Defined.

(** A view of [path_a] refreshed after the two blocks were committed. *)
Definition after_Refresh : outcome unit * (ChainReadOnly * World) :=
  Refresh (ReadOnly path_a, after_commit.2.2).

Lemma Refresh_loads_file_witness :
  after_Refresh.1 = Ok tt ∧
  after_Refresh.2.2 = after_commit.2.2 ∧
  ro_Path after_Refresh.2.1 = path_a ∧
  stored path_a after_commit.2.2 = Val (BlockStream after_Refresh.2.1) ∧
  Refresh (after_Refresh.2.1, after_Refresh.2.2) =
    (Ok tt, (after_Refresh.2.1, after_Refresh.2.2)).
Proof.
  split; [by vm_compute |].
  apply (Refresh_loads_file (ReadOnly path_a) after_Refresh.2.1
           after_commit.2.2 after_Refresh.2.2).
  by vm_compute.
Defined.

(** A disk whose chain file does not decode. *)
Definition path_bad : string := "storage/bad.json".
Definition world_bad : World :=
  {| disk := {| files := {[ path_bad := "oops" ]}; dirs := {[ "storage" ]} |};
     logged := [] |}.

Lemma Refresh_never_writes_witness :
  Refresh (ReadOnly path_bad, world_bad) =
    (Panic (PanicError SyntaxError), (ReadOnly path_bad, world_bad)) ∧
  disk world_bad = disk world_bad ∧
  ro_Path (ReadOnly path_bad) = ro_Path (ReadOnly path_bad) ∧
  (@Panic unit (PanicError SyntaxError) ≠ Ok tt → ReadOnly path_bad = ReadOnly path_bad) ∧
  (∀ raw e, ReadFile (ro_Path (ReadOnly path_bad)) (disk world_bad) = Val raw →
     json_Unmarshal raw = Err e →
     @Panic unit (PanicError SyntaxError) = Panic (PanicError e) ∧ world_bad = world_bad).
Proof.
  assert (Hrun : Refresh (ReadOnly path_bad, world_bad) =
                 (Panic (PanicError SyntaxError), (ReadOnly path_bad, world_bad)))
    by by vm_compute.
  split; [exact Hrun |].
  exact (Refresh_never_writes (ReadOnly path_bad) (ReadOnly path_bad)
           world_bad world_bad (Panic (PanicError SyntaxError)) Hrun).
Defined.

(** A chain set with [route_a] registered at address 1. *)
Definition cs_a : ChainSet := Register (NewChainSet FlushAsTime 1000) "route_a" (Some 1%positive).

Lemma route_names_differ : "route_a" ≠ "route_b".
Proof. discriminate. Qed.

Lemma Register_leaves_other_names_witness :
  "route_a" ≠ "route_b" ∧
  Get cs_a "route_b" = Get (NewChainSet FlushAsTime 1000) "route_b" ∧
  Get cs_a "route_b" = (None, false).
Proof.
  split; [exact route_names_differ |].
  destruct (Register_leaves_other_names (NewChainSet FlushAsTime 1000)
              "route_a" "route_b" (Some 1%positive) FlushAsTime 1000 route_names_differ)
    as (Hother & _ & _ & _ & Hfresh).
  split; [exact Hother | exact Hfresh].
Defined.

(** A process holding the fresh chain of [path_a] at address 1. *)
Definition sys_a : Sys := {| heap := {[ 1%positive := chain_a ]}; world := world0 |}.

Lemma ChainSet_Append_registered_witness :
  Cmap cs_a !! "route_a" = Some (Some 1%positive) ∧
  ∃ s', ChainSet_Append cs_a "route_a" block1 sys_a = (Ok (Some 1%positive), s') ∧
    Get cs_a "route_a" = (Some 1%positive, true) ∧
    world s' = world sys_a ∧
    heap s' !! 1%positive = Some (appended block1 chain_a) ∧
    elems (Chain_ (appended block1 chain_a)) = elems (Chain_ chain_a) ++ [block1] ∧
    (∀ l' : loc, l' ≠ 1%positive → heap s' !! l' = heap sys_a !! l').
Proof.
  split; [by vm_compute |].
  apply (ChainSet_Append_registered cs_a "route_a" block1 1%positive chain_a sys_a);
    by vm_compute.
Defined.

Lemma nil_chain_panics_witness :
  Cmap cs_a !! "ghost" = None ∧
  ChainSet_Append cs_a "ghost" block1 sys_a = (Panic NilDereference, sys_a) ∧
  tick cs_a ["ghost"; "route_a"] sys_a = (Panic NilDereference, sys_a).
Proof.
  assert (Hghost : Cmap cs_a !! "ghost" = None) by by vm_compute.
  split; [exact Hghost |].
  exact (nil_chain_panics cs_a "ghost" block1 ["route_a"] sys_a (or_introl Hghost)).
Defined.

Lemma sys_idle_registered :
  ∀ name, name ∈ ["route_a"] →
    ∃ l : loc, Cmap cs_a !! name = Some (Some l) ∧ is_Some (heap sys_idle !! l).
Proof.
  intros name ->%list_elem_of_singleton. exists 1%positive.
  split; [by vm_compute |]. unfold sys_idle. cbn [heap]. rewrite lookup_singleton_eq. eauto.
Qed.

Lemma sys_idle_clean :
  ∀ (l : loc) c, heap sys_idle !! l = Some c → containsNewBlocks c = false.
Proof.
  intros l c. unfold sys_idle. cbn [heap].
  intros [<- <-]%lookup_singleton_Some. by vm_compute.
Qed.


(** A chain set with two names: [route_a] at address 1 and [route_b] at
    address 2. *)
Definition cs_ab : ChainSet := Register cs_a "route_b" (Some 2%positive).

(** The chain of [path_b] after a commit: no block in memory, the flag
    cleared. *)
Definition idle_b : Chain := committed chain_b.

(** A process holding the chain of [path_a] with one block in memory and
    the chain of [path_b] without new blocks. *)
Definition sys_dirty : Sys :=
  {| heap := {[ 1%positive := dirty_a; 2%positive := idle_b ]}; world := world0 |}.

(** The same with the chain of [path_a] fresh. *)
Definition sys_ab : Sys :=
  {| heap := {[ 1%positive := chain_a; 2%positive := idle_b ]}; world := world0 |}.

Lemma dirty_commit_returns :
  commit (dirty_a, world0) = (Ok tt, (after_dirty_commit.2.1, after_dirty_commit.2.2)).
Proof. by vm_compute. Qed.

Lemma order_ab : iteration_order cs_ab ["route_a"; "route_b"].
Proof. unfold iteration_order. vm_compute. first [reflexivity | apply perm_swap]. Qed.

Lemma order_ba : iteration_order cs_ab ["route_b"; "route_a"].
Proof. unfold iteration_order. vm_compute. first [reflexivity | apply perm_swap]. Qed.

Lemma cs_ab_registered (c : Chain) (w : @World MemDisk) :
  all_registered cs_ab {| heap := {[ 1%positive := c; 2%positive := idle_b ]}; world := w |}.
Proof.
  intros name p. unfold cs_ab, cs_a, Register. cbn [Cmap NewChainSet heap].
  intros Hp. apply lookup_insert_Some in Hp as [[_ <-] | [_ Hp]].
  { exists 2%positive. split; [done |]. by eexists. }
  apply lookup_insert_Some in Hp as [[_ <-] | [_ Hp]]; [| done].
  exists 1%positive. split; [done |]. by eexists.
Qed.

Lemma others_clean (c : Chain) :
  ∀ (l0 : loc) c0, l0 ≠ 1%positive →
    ({[ 1%positive := c; 2%positive := idle_b ]} : gmap loc Chain) !! l0 = Some c0 →
    containsNewBlocks c0 = false.
Proof.
  intros l0 c0 Hne Hl0. rewrite lookup_insert_ne in Hl0 by done.
  by apply lookup_singleton_Some in Hl0 as [_ <-].
Qed.

Lemma route_a_only :
  ∀ name', Cmap cs_ab !! name' = Some (Some 1%positive) → name' = "route_a".
Proof.
  intros name'. unfold cs_ab, cs_a, Register. cbn [Cmap NewChainSet].
  intros Hp. apply lookup_insert_Some in Hp as [[_ [=]] | [_ Hp]].
  by apply lookup_insert_Some in Hp as [[<- _] | [_ Hp]].
Qed.

Lemma turn_commits_then_idles_witness :
  iteration_order cs_ab ["route_b"; "route_a"] ∧
  iteration_order cs_ab ["route_a"; "route_b"] ∧
  containsNewBlocks dirty_a = true ∧
  after_dirty_commit.1 = Ok tt ∧
  ∃ h1 h2,
    tick cs_ab ["route_b"; "route_a"] sys_dirty =
      (Ok tt, {| heap := h1; world := after_dirty_commit.2.2 |}) ∧
    (tick cs_ab ["route_b"; "route_a"];; tick cs_ab ["route_a"; "route_b"]) sys_dirty =
      (Ok tt, {| heap := h2; world := after_dirty_commit.2.2 |}) ∧
    h1 !! 1%positive = Some after_dirty_commit.2.1 ∧
    h2 !! 1%positive = Some (idled after_dirty_commit.2.1) ∧
    elems (Chain_ (idled after_dirty_commit.2.1)) = [] ∧
    containsNewBlocks (idled after_dirty_commit.2.1) = false ∧
    inActiveIterations (idled after_dirty_commit.2.1) =
      (inActiveIterations dirty_a + 1) mod 2 ^ 32.
Proof.
  split; [exact order_ba |]. split; [exact order_ab |].
  split; [reflexivity |]. split; [by vm_compute |].
  destruct (turn_commits_then_idles cs_ab ["route_b"; "route_a"] ["route_a"; "route_b"]
              "route_a" 1%positive dirty_a
              after_dirty_commit.2.1 after_dirty_commit.2.2 sys_dirty
              order_ba order_ab (cs_ab_registered dirty_a world0)
              eq_refl eq_refl eq_refl (others_clean dirty_a) dirty_commit_returns)
    as (h1 & h2 & c1 & c2 & Hrun1 & Hrun2 & Hc1 & _ & Hc2 & _ & Hempty & Hflag & _ & Honly).
  destruct (Honly route_a_only) as (-> & -> & Hcount).
  by exists h1, h2.
Defined.

(** A block appended through the chain set, and a turn of the scheduler. *)
Definition after_pipeline : outcome unit * Sys :=
  (ChainSet_Append cs_ab "route_a" block1;; tick cs_ab ["route_b"; "route_a"]) sys_ab.

Lemma appended_block_reaches_file_witness :
  iteration_order cs_ab ["route_b"; "route_a"] ∧
  stored (Path chain_a) world0 = Val (Some []) ∧
  after_dirty_commit.1 = Ok tt ∧
  reads_back (append (Some []) (elems (Chain_ chain_a) ++ [block1])) ∧
  ∃ s' new c2,
    (ChainSet_Append cs_ab "route_a" block1;; tick cs_ab ["route_b"; "route_a"]) sys_ab =
      (Ok tt, s') ∧
    world s' = after_dirty_commit.2.2 ∧
    stored (Path chain_a) (world s') = Val new ∧
    elems new = elems (Some []) ++ elems (Chain_ chain_a) ++ [block1] ∧
    heap s' !! 1%positive = Some c2 ∧
    elems (Chain_ c2) = [] ∧ containsNewBlocks c2 = false.
Proof.
  assert (Hback : reads_back (append (Some []) (elems (Chain_ chain_a) ++ [block1])))
    by by vm_compute.
  split; [exact order_ba |]. split; [exact stored_world0 |].
  split; [by vm_compute |]. split; [exact Hback |].
  exact (appended_block_reaches_file cs_ab ["route_b"; "route_a"] "route_a" block1
           1%positive chain_a (Some [])
           after_dirty_commit.2.1 after_dirty_commit.2.2 sys_ab
           order_ba (cs_ab_registered chain_a world0) eq_refl eq_refl
           (others_clean chain_a) stored_world0 dirty_commit_returns Hback).
Defined.

Lemma sys_idle_turns : turns_registered cs_a [["route_a"]; ["route_a"]] sys_idle.
Proof.
  intros order name Horder Hname. apply sys_idle_registered.
  apply elem_of_cons in Horder as [-> | Horder]; [done |].
  by apply list_elem_of_singleton in Horder as ->.
Qed.

